(** * jimgw.prior: named priors built from leaf distributions and transforms

    A shallow embedding of [src/jimgw/prior.py].  Python dictionaries are
    finite maps keyed by strings, exceptions are an error monad, and the
    floating-point numbers of JAX are modelled by [Float]: the IEEE special
    values (the two infinities and NaN) around exact real arithmetic on the
    finite values.  Rounding, overflow of finite results and the sign of zero
    are not modelled. *)

From Stdlib Require Import Reals Lra.
From stdpp Require Import gmap strings list fin_maps.

Set Warnings "-register-all".

(** ** Floating-point values *)

Inductive Float : Type :=
| Finite (r : R)
| PInf
| NInf
| NaN.

Definition rcmp (a b : R) : comparison :=
  match total_order_T a b with
  | inleft (left _) => Lt
  | inleft (right _) => Eq
  | inright _ => Gt
  end.

Definition fneg (x : Float) : Float :=
  match x with
  | Finite r => Finite (- r)
  | PInf => NInf
  | NInf => PInf
  | NaN => NaN
  end.

Definition fabs (x : Float) : Float :=
  match x with
  | Finite r => Finite (Rabs r)
  | PInf | NInf => PInf
  | NaN => NaN
  end.

Definition fadd (x y : Float) : Float :=
  match x, y with
  | NaN, _ | _, NaN => NaN
  | Finite a, Finite b => Finite (a + b)
  | PInf, NInf | NInf, PInf => NaN
  | PInf, _ | _, PInf => PInf
  | NInf, _ | _, NInf => NInf
  end.

Definition fsub (x y : Float) : Float := fadd x (fneg y).

(** The infinity carrying the sign of [r]; NaN for zero. *)
Definition inf_signed (r : R) : Float :=
  match rcmp r 0 with
  | Gt => PInf
  | Lt => NInf
  | Eq => NaN
  end.

Definition fmul (x y : Float) : Float :=
  match x, y with
  | NaN, _ | _, NaN => NaN
  | Finite a, Finite b => Finite (a * b)
  | PInf, Finite r | Finite r, PInf => inf_signed r
  | NInf, Finite r | Finite r, NInf => inf_signed (- r)
  | PInf, PInf | NInf, NInf => PInf
  | PInf, NInf | NInf, PInf => NInf
  end.

Definition fdiv (x y : Float) : Float :=
  match x, y with
  | NaN, _ | _, NaN => NaN
  | Finite a, Finite b =>
      match rcmp b 0 with
      | Eq => inf_signed a
      | _ => Finite (a / b)
      end
  | Finite _, (PInf | NInf) => Finite 0
  | PInf, Finite b => match rcmp b 0 with Lt => NInf | _ => PInf end
  | NInf, Finite b => match rcmp b 0 with Lt => PInf | _ => NInf end
  | (PInf | NInf), (PInf | NInf) => NaN
  end.

Definition flog (x : Float) : Float :=
  match x with
  | Finite r =>
      match rcmp r 0 with
      | Gt => Finite (ln r)
      | Eq => NInf
      | Lt => NaN
      end
  | PInf => PInf
  | NInf | NaN => NaN
  end.

Definition fexp (x : Float) : Float :=
  match x with
  | Finite r => Finite (exp r)
  | PInf => PInf
  | NInf => Finite 0
  | NaN => NaN
  end.

(** [r] is a whole number, and then an odd one. *)
Definition is_int (r : R) : bool :=
  if Req_dec_T (IZR (Int_part r)) r then true else false.

Definition is_odd_int (r : R) : bool := is_int r && Z.odd (Int_part r).

(** [x ** y] with the special cases of the C [pow] function. *)
Definition fpow (x y : Float) : Float :=
  match x, y with
  | _, Finite b =>
      match rcmp b 0 with
      | Eq => Finite 1
      | sb =>
          match x with
          | NaN => NaN
          | PInf => match sb with Gt => PInf | _ => Finite 0 end
          | NInf =>
              match sb with
              | Gt => if is_odd_int b then NInf else PInf
              | _ => Finite 0
              end
          | Finite a =>
              match rcmp a 0 with
              | Gt => Finite (Rpower a b)
              | Eq => match sb with Gt => Finite 0 | _ => PInf end
              | Lt => if is_int b then Finite (powerRZ a (Int_part b)) else NaN
              end
          end
      end
  | Finite a, (PInf | NInf) =>
      match rcmp (Rabs a) 1 with
      | Eq => Finite 1
      | Lt => match y with PInf => Finite 0 | _ => PInf end
      | Gt => match y with PInf => PInf | _ => Finite 0 end
      end
  | (PInf | NInf), PInf => PInf
  | (PInf | NInf), NInf => Finite 0
  | _, NaN => match x with
              | Finite a => match rcmp a 1 with Eq => Finite 1 | _ => NaN end
              | _ => NaN
              end
  | NaN, _ => NaN
  end.

(** Comparisons: every comparison with NaN is false. *)
Definition flt (x y : Float) : bool :=
  match x, y with
  | NaN, _ | _, NaN => false
  | Finite a, Finite b => match rcmp a b with Lt => true | _ => false end
  | NInf, (Finite _ | PInf) => true
  | Finite _, PInf => true
  | _, _ => false
  end.

Definition feqb (x y : Float) : bool :=
  match x, y with
  | Finite a, Finite b => match rcmp a b with Eq => true | _ => false end
  | PInf, PInf | NInf, NInf => true
  | _, _ => false
  end.

(** Sum of an array, accumulated from zero left to right. *)
Definition fsum (l : list Float) : Float := foldl fadd (Finite 0) l.

(** ** Exceptions *)

Inductive exn : Type :=
| KeyError (key : string)
| IndexError
| AssertionError (msg : string)
| TypeError (msg : string)
| ValueError (msg : string)
| NotImplementedError.

Inductive result (A : Type) : Type :=
| Ok (a : A)
| Raise (e : exn).
Arguments Ok {A} a.
Arguments Raise {A} e.

#[global] Instance result_ret : MRet result := fun A a => Ok a.
#[global] Instance result_bind : MBind result := fun A B f m =>
  match m with
  | Ok a => f a
  | Raise e => Raise e
  end.

(** [assert c, msg] *)
Definition assert (c : bool) (msg : string) : result unit :=
  if c then Ok tt else Raise (AssertionError msg).

(** [d[k]] on a dict *)
Definition getitem {V} (d : gmap string V) (k : string) : result V :=
  match d !! k with
  | Some v => Ok v
  | None => Raise (KeyError k)
  end.

(** [l[i]] on a list *)
Definition index {A} (l : list A) (i : nat) : result A :=
  match l !! i with
  | Some a => Ok a
  | None => Raise IndexError
  end.

(** ** Python helpers *)

(** [d.update(pairs)]: later pairs overwrite earlier ones. *)
Definition update {V} (pairs : list (string * V)) (d : gmap string V) : gmap string V :=
  foldl (fun m kv => <[kv.1 := kv.2]> m) d pairs.

(** [d.pop(k)] for each [k] of [ks], when present. *)
Definition pop_all {V} (ks : list string) (d : gmap string V) : gmap string V :=
  foldl (fun m k => delete k m) d ks.

(** The f-string rendering of a float, a function of the Python runtime. *)
Class FloatFormat := float_str : Float -> string.

(** The part of [jax.random] that the priors call: keys, key splitting and
    the three samplers, with the shapes and ranges their documentation
    promises. *)
Class JaxRandom := {
  PRNGKeyArray : Type;
  PRNGKey : Z -> PRNGKeyArray;
  split : PRNGKeyArray -> PRNGKeyArray * PRNGKeyArray;
  uniform : PRNGKeyArray -> nat -> R -> R -> list Float;
  normal : PRNGKeyArray -> nat -> list Float;
  dirichlet : PRNGKeyArray -> list Float -> nat -> list (list Float);
  uniform_shape : forall key n lo hi, length (uniform key n lo hi) = n;
  uniform_range : forall key n lo hi v,
    (lo < hi)%R -> v ∈ uniform key n lo hi ->
    exists r, v = Finite r /\ (lo <= r < hi)%R;
  normal_shape : forall key n, length (normal key n) = n;
  dirichlet_shape : forall key alpha n, length (dirichlet key alpha n) = n;
  dirichlet_row : forall key alpha n row,
    row ∈ dirichlet key alpha n -> length row = length alpha
}.

(** ** Transforms *)

(** Modelled from the spec: the transform interface of [jimgw.transforms],
    which is not among the sources.  A transform declares its input and
    output names, a forward map on the values of the input names, an inverse
    map on the values of the output names, and the log of the absolute
    Jacobian determinant of the inverse map. *)
Record BijectiveTransform : Type := {
  name_mapping : list string * list string;
  transform_func : list Float -> list Float;
  inverse_transform_func : list Float -> list Float;
  inverse_log_jacobian : list Float -> Float
}.

(** Modelled from the spec: [Transform.propagate_name], the declared
    renaming: the consumed names leave the list and the produced names
    join it. *)
Definition propagate_name (t : BijectiveTransform) (x : list string) : list string :=
  filter (fun n => n ∉ (name_mapping t).1) x ++ (name_mapping t).2.

(** Modelled from the spec: [forward], a map from the input names to the
    output names.  The values of the input names are read from the
    dictionary and replaced by the values of the output names; the other
    entries are kept, since a child of a Combine receives the whole
    dictionary and reads only its own names. *)
Definition forward (t : BijectiveTransform) (x : gmap string Float)
  : result (gmap string Float) :=
  vals ← mapM (getitem x) (name_mapping t).1;
  Ok (update (zip (name_mapping t).2 (transform_func t vals))
             (pop_all (name_mapping t).1 x)).

(** Modelled from the spec: [inverse], the pre-image together with the
    log-Jacobian term of the inverse map. *)
Definition inverse (t : BijectiveTransform) (y : gmap string Float)
  : result (gmap string Float * Float) :=
  vals ← mapM (getitem y) (name_mapping t).2;
  Ok (update (zip (name_mapping t).1 (inverse_transform_func t vals))
             (pop_all (name_mapping t).2 y),
      inverse_log_jacobian t vals).

(** The batch axis: [column j rows] is [rows[:, j]]. *)
Definition column (j : nat) (rows : list (list Float)) : list Float :=
  map (fun row => default NaN (row !! j)) rows.

(** [forward] under [jax.vmap] with batch size [n]: the dictionary is
    handled once, the map on values runs on every batch element. *)
Definition forward_batch (n : nat) (t : BijectiveTransform)
    (x : gmap string (list Float)) : result (gmap string (list Float)) :=
  arrays ← mapM (getitem x) (name_mapping t).1;
  let outs := map (fun i => transform_func t (column i arrays)) (seq 0 n) in
  let cols := map (fun j => column j outs) (seq 0 (length (name_mapping t).2)) in
  Ok (update (zip (name_mapping t).2 cols) (pop_all (name_mapping t).1 x)).

(** A transform acting on each coordinate on its own; the Jacobian is then
    diagonal and its log-determinant the sum of the coordinates' terms. *)
Definition coordinatewise (name_mapping : list string * list string)
    (f finv flj : Float -> Float) : BijectiveTransform :=
  {| name_mapping := name_mapping;
     transform_func := map f;
     inverse_transform_func := map finv;
     inverse_log_jacobian := fun vals => fsum (map flj vals) |}.

Definition sigmoid (x : Float) : Float :=
  fdiv (Finite 1) (fadd (Finite 1) (fexp (fneg x))).

Definition logit (u : Float) : Float :=
  flog (fdiv u (fsub (Finite 1) u)).

(** Modelled from the spec: [LogitTransform] of [jimgw.transforms], the
    pair logit [log(u/(1-u))] and logistic sigmoid.  Its direction is the one
    the sources fix: [UniformPrior.__init__] declares the unbounded
    [..._base] variable of the logistic leaf as the input name and the
    unit-interval variable as the output name, and [test_uniform] asserts
    that the forward images of logistic draws are all finite.  So forward is
    the sigmoid and inverse the logit, and the log-Jacobian of the inverse is
    the negative of the sigmoid's [log(s) + log(1-s)] at the same point. *)
Definition LogitTransform (name_mapping : list string * list string) : BijectiveTransform :=
  coordinatewise name_mapping sigmoid logit
    (fun y => fneg (fadd (flog y) (flog (fsub (Finite 1) y)))).

(** Modelled from the spec: [ScaleTransform], forward [x*s], inverse [y/s],
    log-Jacobian of the inverse [-log|s|]. *)
Definition ScaleTransform (name_mapping : list string * list string) (scale : Float)
  : BijectiveTransform :=
  coordinatewise name_mapping (fun x => fmul x scale) (fun y => fdiv y scale)
    (fun _ => fneg (flog (fabs scale))).

(** Modelled from the spec: [OffsetTransform], forward [x+c], inverse [y-c],
    log-Jacobian [0]. *)
Definition OffsetTransform (name_mapping : list string * list string) (offset : Float)
  : BijectiveTransform :=
  coordinatewise name_mapping (fun x => fadd x offset) (fun y => fsub y offset)
    (fun _ => Finite 0).

(** Modelled from the spec: [PowerLawTransform], forward the inverse CDF
    [((xmax^(1+alpha) - xmin^(1+alpha))*u + xmin^(1+alpha))^(1/(1+alpha))],
    inverse the CDF, log-Jacobian of the inverse
    [log(normalization) + alpha*log(y)] with
    [normalization = (1+alpha)/(xmax^(1+alpha) - xmin^(1+alpha))]. *)
Definition PowerLawTransform (name_mapping : list string * list string)
    (xmin xmax alpha : Float) : BijectiveTransform :=
  let a1 := fadd (Finite 1) alpha in
  let width := fsub (fpow xmax a1) (fpow xmin a1) in
  coordinatewise name_mapping
    (fun u => fpow (fadd (fmul width u) (fpow xmin a1)) (fdiv (Finite 1) a1))
    (fun y => fdiv (fsub (fpow y a1) (fpow xmin a1)) width)
    (fun y => fadd (flog (fdiv a1 width)) (fmul alpha (flog y))).

(** Modelled from the spec: [ParetoTransform], the [alpha = -1] case, with
    the log-uniform CDF [log(y/xmin)/log(xmax/xmin)] as inverse, its inverse
    function as forward, and log-Jacobian of the inverse
    [-log(y) - log(log(xmax/xmin))]. *)
Definition ParetoTransform (name_mapping : list string * list string)
    (xmin xmax : Float) : BijectiveTransform :=
  coordinatewise name_mapping
    (fun u => fmul xmin (fexp (fmul u (flog (fdiv xmax xmin)))))
    (fun y => fdiv (flog (fdiv y xmin)) (flog (fdiv xmax xmin)))
    (fun y => fsub (fneg (flog y)) (flog (flog (fdiv xmax xmin)))).

(** ** Priors *)

(** The objects of the [Prior] class tree.  Every object carries the
    [parameter_names] its constructor computed; a Sequential owns one base
    prior and its transforms, a Combine its children.  The derived classes
    ([UniformPrior], [PowerLawPrior], ...) are Sequential objects; their
    extra attributes ([xmin], [xmax], [alpha]) take no part in [sample] or
    [log_prob]. *)
Inductive Prior : Type :=
| MkPrior (parameter_names : list string)
| MkLogistic (parameter_names : list string)
| MkStandardNormal (parameter_names : list string)
| MkLogisticSimplex (parameter_names : list string)
| MkSequential (parameter_names : list string) (base_prior : Prior)
    (transforms : list BijectiveTransform)
| MkCombine (parameter_names : list string) (base_prior : list Prior).

Definition parameter_names (p : Prior) : list string :=
  match p with
  | MkPrior ns | MkLogistic ns | MkStandardNormal ns | MkLogisticSimplex ns
  | MkSequential ns _ _ | MkCombine ns _ => ns
  end.

Definition composite (p : Prior) : bool :=
  match p with
  | MkSequential _ _ _ | MkCombine _ _ => true
  | _ => false
  end.

Definition n_dim (p : Prior) : nat := length (parameter_names p).

(** [dict(zip(self.parameter_names, x))] *)
Definition add_name {V} (names : list string) (x : list V) : gmap string V :=
  update (zip names x) ∅.

(** *** Constructors *)

Definition LogisticDistribution (parameter_names : list string) : result Prior :=
  _ ← assert (length parameter_names =? 1)
        "LogisticDistribution needs to be 1D distributions";
  Ok (MkLogistic parameter_names).

Definition StandardNormalDistribution (parameter_names : list string) : result Prior :=
  _ ← assert (length parameter_names =? 1)
        "StandardNormalDistribution needs to be 1D distributions";
  Ok (MkStandardNormal parameter_names).

Definition LogisticSimplexDistribution (parameter_names : list string) : result Prior :=
  _ ← assert (length parameter_names =? 2)
        "SimplexDistribution needs to be 2D distributions";
  Ok (MkLogisticSimplex parameter_names).

(** [SequentialTransformPrior.__init__(self, base_prior, transforms)].  Both
    parameters are required; [transforms] is [None] here when the call site
    passes no argument for it, which Python refuses before the body runs. *)
Definition SequentialTransformPrior (base_prior : Prior)
    (transforms : option (list BijectiveTransform)) : result Prior :=
  match transforms with
  | None =>
      Raise (TypeError "SequentialTransformPrior.__init__() missing 1 required positional argument: 'transforms'")
  | Some transforms =>
      Ok (MkSequential
            (foldl (fun names t => propagate_name t names)
                   (parameter_names base_prior) transforms)
            base_prior transforms)
  end.

Definition CombinePrior (priors : list Prior) : result Prior :=
  Ok (MkCombine (foldl (fun names prior => names ++ parameter_names prior) [] priors)
                priors).

Section Derived.
Context `{FloatFormat}.

Definition UniformPrior (xmin xmax : Float) (parameter_names : list string)
  : result Prior :=
  _ ← assert (length parameter_names =? 1) "UniformPrior needs to be 1D distributions";
  name ← index parameter_names 0;
  let base_name := name +:+ "_base" in
  let unit_name :=
    "(" +:+ name +:+ "-(" +:+ float_str xmin +:+ "))/" +:+ float_str (fsub xmax xmin) in
  let shifted_name := name +:+ "-(" +:+ float_str xmin +:+ ")" in
  base ← LogisticDistribution [base_name];
  SequentialTransformPrior base
    (Some [ LogitTransform ([base_name], [unit_name]);
            ScaleTransform ([unit_name], [shifted_name]) (fsub xmax xmin);
            OffsetTransform ([shifted_name], parameter_names) xmin ]).

Definition SimplexPrior (parameter_names : list string) : result Prior :=
  _ ← assert (length parameter_names =? 2) "SimplexPrior needs to be 2D distributions";
  name0 ← index parameter_names 0;
  u0 ← UniformPrior (Finite 0) (Finite 1) [name0];
  name1 ← index parameter_names 1;
  u1 ← UniformPrior (Finite 0) (Finite 1) [name1];
  base ← CombinePrior [u0; u1];
  SequentialTransformPrior base None.

Definition PowerLawPrior (xmin xmax alpha : Float) (parameter_names : list string)
  : result Prior :=
  _ ← assert (length parameter_names =? 1) "Power law needs to be 1D distributions";
  _ ← assert (flt xmin xmax) "xmin must be less than xmax";
  _ ← assert (flt (Finite 0) xmin) "x must be positive";
  name ← index parameter_names 0;
  let before := name +:+ "_before_transform" in
  let transform :=
    if feqb alpha (Finite (-1))
    then ParetoTransform ([before], parameter_names) xmin xmax
    else PowerLawTransform ([before], parameter_names) xmin xmax alpha in
  base ← LogisticDistribution [name +:+ "_base"];
  SequentialTransformPrior base
    (Some [ LogitTransform ([name +:+ "_base"], [before]); transform ]).

Definition UniformInComponentsChirpMassPrior (xmin xmax : Float) : result Prior :=
  PowerLawPrior xmin xmax (Finite 1) ["M_c"].

End Derived.

(** *** Density *)

(** The loop of [SequentialTransformPrior.log_prob] over the transforms it
    is given, threading the dictionary and the accumulated output. *)
Fixpoint inverse_loop (ts : list BijectiveTransform) (z : gmap string Float)
    (output : Float) : result (gmap string Float * Float) :=
  match ts with
  | [] => Ok (z, output)
  | transform :: ts' =>
      zl ← inverse transform z;
      inverse_loop ts' zl.1 (fadd output zl.2)
  end.

Fixpoint log_prob (p : Prior) (z : gmap string Float) : result Float :=
  match p with
  | MkPrior _ => Raise NotImplementedError
  | MkLogistic names =>
      name ← index names 0;
      variable ← getitem z name;
      Ok (fsub (fneg variable)
               (fmul (Finite 2) (flog (fadd (Finite 1) (fexp (fneg variable))))))
  | MkStandardNormal names =>
      name ← index names 0;
      variable ← getitem z name;
      Ok (fsub (fmul (Finite (-0.5)) (fpow variable (Finite 2)))
               (fmul (Finite 0.5) (flog (fmul (Finite 2) (Finite PI)))))
  | MkLogisticSimplex names =>
      name0 ← index names 0;
      _ ← getitem z name0;
      name1 ← index names 1;
      _ ← getitem z name1;
      Ok (flog (Finite 2))
  | MkSequential _ base_prior transforms =>
      zo ← inverse_loop (rev transforms) z (Finite 0);
      base ← log_prob base_prior zo.1;
      Ok (fadd zo.2 base)
  | MkCombine _ priors =>
      (fix loop (priors : list Prior) (output : Float) : result Float :=
         match priors with
         | [] => Ok output
         | prior :: priors' =>
             lp ← log_prob prior z;
             loop priors' (fadd output lp)
         end) priors (Finite 0)
  end.

(** [SequentialTransformPrior.transform] *)
Fixpoint transform (ts : list BijectiveTransform) (x : gmap string Float)
  : result (gmap string Float) :=
  match ts with
  | [] => Ok x
  | t :: ts' => x' ← forward t x; transform ts' x'
  end.

(** *** Sampling *)

(** The size of the batch axis that [jax.vmap] maps over: the common length
    of the arrays of the dictionary. *)
Definition batch_size (x : gmap string (list Float)) : result nat :=
  match map_to_list x with
  | [] => Raise (ValueError "vmap needs at least one array argument")
  | (_, a) :: rest =>
      if forallb (fun kv => length kv.2 =? length a) rest
      then Ok (length a)
      else Raise (ValueError "vmap got inconsistent sizes for array axes")
  end.

Fixpoint transform_batch (n : nat) (ts : list BijectiveTransform)
    (x : gmap string (list Float)) : result (gmap string (list Float)) :=
  match ts with
  | [] => Ok x
  | t :: ts' => x' ← forward_batch n t x; transform_batch n ts' x'
  end.

(** [jax.vmap(self.transform)(output)] *)
Definition vmap_transform (ts : list BijectiveTransform)
    (output : gmap string (list Float)) : result (gmap string (list Float)) :=
  n ← batch_size output;
  transform_batch n ts output.

Section Sampling.
Context `{JaxRandom}.

Fixpoint sample (p : Prior) (rng_key : PRNGKeyArray) (n_samples : nat)
  : result (gmap string (list Float)) :=
  match p with
  | MkPrior _ => Raise NotImplementedError
  | MkLogistic names =>
      let samples := uniform rng_key n_samples 0 1 in
      let samples := map (fun s => flog (fdiv s (fsub (Finite 1) s))) samples in
      Ok (add_name names [samples])
  | MkStandardNormal names =>
      let samples := normal rng_key n_samples in
      Ok (add_name names [samples])
  | MkLogisticSimplex names =>
      let samples := dirichlet (PRNGKey 0) [Finite 1; Finite 1; Finite 1] 1000 in
      let samples := map (take 2) samples in
      let s0 := column 0 samples in
      let s1 := column 1 samples in
      let z1 := map (fun a => flog (fdiv a (fsub (Finite 1) a))) s0 in
      let temp := zip_with (fun b a => fdiv b (fsub (Finite 1) a)) s1 s0 in
      let z2 := map (fun t => flog (fdiv t (fsub (Finite 1) t))) temp in
      Ok (add_name names [z1; z2])
  | MkSequential _ base_prior transforms =>
      output ← sample base_prior rng_key n_samples;
      vmap_transform transforms output
  | MkCombine _ priors =>
      (fix loop (priors : list Prior) (rng_key : PRNGKeyArray)
           (output : gmap string (list Float)) : result (gmap string (list Float)) :=
         match priors with
         | [] => Ok output
         | prior :: priors' =>
             let ks := split rng_key in
             s ← sample prior ks.2 n_samples;
             loop priors' ks.1 (s ∪ output)
         end) priors rng_key ∅
  end.

End Sampling.

(** *** Tracing the leaves *)

(** Python lists are objects: [output.append] changes the list that every
    holder of the reference sees.  The store maps a reference to the
    contents of its list. *)
Abbreviation ref := nat (only parsing).
Abbreviation store := (gmap nat (list Prior)) (only parsing).

(** [output.append(prior)] *)
Definition append (output : ref) (prior : Prior) (h : store) : store :=
  alter (fun l => l ++ [prior]) output h.

(** [trace_prior_parent(prior, output)]: returns the reference it ends with
    and the store it leaves.  Of a composite, [isinstance(prior.base_prior,
    list)] is the Combine case and [isinstance(prior.base_prior, Prior)] the
    Sequential one. *)
Fixpoint trace_prior_parent (prior : Prior) (output : ref) (h : store)
  : ref * store :=
  if composite prior then
    match prior with
    | MkCombine _ priors =>
        (fix loop (priors : list Prior) (output : ref) (h : store) : ref * store :=
           match priors with
           | [] => (output, h)
           | subprior :: priors' =>
               let oh := trace_prior_parent subprior output h in
               loop priors' oh.1 oh.2
           end) priors output h
    | MkSequential _ base_prior _ => trace_prior_parent base_prior output h
    | _ => (output, h)
    end
  else (output, append output prior h).

(** The list object that [def trace_prior_parent(prior, output=[])] creates
    once, when the function is defined, and the store right after. *)
Definition default_output : ref := 0.
Definition initial_store : store := {[ default_output := [] ]}.

(** A call [trace_prior_parent(prior)]: the parameter is bound to the default
    object.  The call's value is the contents of the returned list. *)
Definition call_default (prior : Prior) (h : store) : list Prior * store :=
  let oh := trace_prior_parent prior default_output h in
  (default [] (oh.2 !! oh.1), oh.2).

(** A call [trace_prior_parent(prior, [])]: the list display allocates a new
    object. *)
Definition call_fresh (prior : Prior) (h : store) : list Prior * store :=
  let l := fresh (dom h) in
  let oh := trace_prior_parent prior l (<[l := []]> h) in
  (default [] (oh.2 !! oh.1), oh.2).

(** ** The inversion chain, as the specification words it *)

(** Apply the inverse of each transform of [ts] in the order given, and
    return the values reached together with the log-Jacobian terms in the
    order they were returned. *)
Fixpoint inversion_chain (ts : list BijectiveTransform) (z : gmap string Float)
  : result (gmap string Float * list Float) :=
  match ts with
  | [] => Ok (z, [])
  | t :: ts' =>
      zl ← inverse t z;
      rest ← inversion_chain ts' zl.1;
      Ok (rest.1, zl.2 :: rest.2)
  end.

(** The leaves of a prior tree, depth first and left to right. *)
Fixpoint leaves (p : Prior) : list Prior :=
  match p with
  | MkCombine _ priors =>
      (fix each (priors : list Prior) : list Prior :=
         match priors with
         | [] => []
         | q :: priors' => leaves q ++ each priors'
         end) priors
  | MkSequential _ base_prior _ => leaves base_prior
  | _ => [p]
  end.

(** Name lists that share no name, pairwise. *)
Definition pairwise_disjoint (ls : list (list string)) : Prop :=
  forall i j a b, i ≠ j -> ls !! i = Some a -> ls !! j = Some b -> a ## b.

(** The children of a Combine of uniform priors, one per bounds and name,
    constructed in order, and the leaf under each. *)
Definition uniform_children `{FloatFormat} (specs : list (Float * Float * string))
  : result (list Prior) :=
  mapM (fun s => UniformPrior s.1.1 s.1.2 [s.2]) specs.

Definition uniform_leaf (s : Float * Float * string) : Prior :=
  MkLogistic [s.2 +:+ "_base"].

(** The expressions of the logistic leaf's log-density and of the logit's
    log-Jacobian, named for the statements below. *)
Definition logistic_log_density (variable : Float) : Float :=
  fsub (fneg variable) (fmul (Finite 2) (flog (fadd (Finite 1) (fexp (fneg variable))))).

Definition logit_log_jacobian (y : Float) : Float :=
  fneg (fadd (flog y) (flog (fsub (Finite 1) y))).

(** What [log_prob] of a Sequential over a logistic base accumulates when
    the last inverse of its chain is the logit: the terms [lj] gathered
    before it, the logit's term at [u], and the base's density. *)
Definition through_logit (lj u : Float) : Float :=
  fadd (fadd lj (logit_log_jacobian u)) (logistic_log_density (logit u)).

(** The same for [UniformPrior(xmin, xmax)] at the value [v]. *)
Definition uniform_log_prob (xmin xmax v : Float) : Float :=
  let scale := fsub xmax xmin in
  through_logit (fadd (fadd (Finite 0) (Finite 0)) (fneg (flog (fabs scale))))
                (fdiv (fsub v xmin) scale).

(** The forward chain of [UniformPrior(xmin, xmax)] on one base value. *)
Definition uniform_forward (xmin xmax x : Float) : Float :=
  fadd (fmul (sigmoid x) (fsub xmax xmin)) xmin.

(** What [log_prob] of [PowerLawPrior(xmin, xmax, alpha)] accumulates at the
    value [v], on the power-law branch and on the Pareto branch. *)
Definition power_law_log_prob (xmin xmax alpha v : Float) : Float :=
  let a1 := fadd (Finite 1) alpha in
  let width := fsub (fpow xmax a1) (fpow xmin a1) in
  through_logit
    (fadd (Finite 0) (fadd (flog (fdiv a1 width)) (fmul alpha (flog v))))
    (fdiv (fsub (fpow v a1) (fpow xmin a1)) width).

Definition pareto_log_prob (xmin xmax v : Float) : Float :=
  through_logit
    (fadd (Finite 0) (fsub (fneg (flog v)) (flog (flog (fdiv xmax xmin)))))
    (fdiv (flog (fdiv v xmin)) (flog (fdiv xmax xmin))).

(** ** The angular priors

    [jnp.sin], [jnp.cos] and [jnp.arcsin]: NaN on the infinities, and
    [arcsin] NaN outside [[-1, 1]]. *)

Definition fsin (x : Float) : Float :=
  match x with
  | Finite r => Finite (sin r)
  | _ => NaN
  end.

Definition fcos (x : Float) : Float :=
  match x with
  | Finite r => Finite (cos r)
  | _ => NaN
  end.

Definition fasin (x : Float) : Float :=
  match x with
  | Finite r =>
      match rcmp (Rabs r) 1 with
      | Gt => NaN
      | _ => Finite (asin r)
      end
  | _ => NaN
  end.

(** Modelled from the spec: [ArcSineTransform] of [jimgw.transforms],
    forward [arcsin] from [[-1, 1]] to [[-pi/2, pi/2]], inverse [sin],
    log-Jacobian of the inverse [log|cos(y)|]. *)
Definition ArcSineTransform (name_mapping : list string * list string)
  : BijectiveTransform :=
  coordinatewise name_mapping fasin fsin (fun y => flog (fabs (fcos y))).

Section Angular.
Context `{FloatFormat}.

Definition CosinePrior (parameter_names : list string) : result Prior :=
  _ ← assert (length parameter_names =? 1) "CosinePrior needs to be 1D distributions";
  name ← index parameter_names 0;
  base ← UniformPrior (Finite (-1)) (Finite 1) ["sin(" +:+ name +:+ ")"];
  SequentialTransformPrior base
    (Some [ ArcSineTransform (["sin(" +:+ name +:+ ")"], [name]) ]).

Definition SinePrior (parameter_names : list string) : result Prior :=
  _ ← assert (length parameter_names =? 1) "SinePrior needs to be 1D distributions";
  name ← index parameter_names 0;
  base ← CosinePrior [name +:+ "-pi/2"];
  SequentialTransformPrior base
    (Some [ OffsetTransform ([name +:+ "-pi/2"], [name]) (Finite (PI / 2)) ]).

Definition UniformSpherePrior (parameter_names : list string) : result Prior :=
  _ ← assert (length parameter_names =? 1)
        "UniformSpherePrior only takes the name of the vector";
  name ← index parameter_names 0;
  let parameter_names := [name +:+ "_mag"; name +:+ "_theta"; name +:+ "_phi"] in
  name0 ← index parameter_names 0;
  mag ← UniformPrior (Finite 0) (Finite 1) [name0];
  name1 ← index parameter_names 1;
  theta ← SinePrior [name1];
  name2 ← index parameter_names 2;
  phi ← UniformPrior (Finite 0) (fmul (Finite 2) (Finite PI)) [name2];
  CombinePrior [mag; theta; phi].

End Angular.

(** ** The reference density of the tests

    [powerlaw_log_pdf] of [test_power_law], against which the test compares
    [PowerLawPrior.log_prob]. *)
Definition powerlaw_log_pdf (x alpha xmin xmax : Float) : Float :=
  let normalization :=
    if feqb alpha (Finite (-1))
    then fdiv (Finite 1) (fsub (flog xmax) (flog xmin))
    else fdiv (fadd (Finite 1) alpha)
              (fsub (fpow xmax (fadd (Finite 1) alpha))
                    (fpow xmin (fadd (Finite 1) alpha))) in
  fadd (flog normalization) (fmul alpha (flog x)).

(** ** Words for the statements on sampling *)

(** The subkeys that the loop of [CombinePrior.sample] hands to its first
    [k] children: each round splits the running key, keeps the first half
    and gives the second to the child. *)
Fixpoint subkeys `{JaxRandom} (rng_key : PRNGKeyArray) (k : nat) : list PRNGKeyArray :=
  match k with
  | 0 => []
  | S k' => (split rng_key).2 :: subkeys (split rng_key).1 k'
  end.

(** A prior keeps the sampling contract when, for every key and count, it
    returns one array per parameter name and nothing else, each of the
    requested length. *)
Definition sample_contract `{JaxRandom} (p : Prior) : Prop :=
  forall (key : PRNGKeyArray) (n : nat), exists d,
    sample p key n = Ok d /\
    dom d = list_to_set (parameter_names p) /\
    map_Forall (fun _ arr => length arr = n) d.

(** A chain of one-name coordinatewise transforms that leads from the name
    [a] to the name [b], each consuming the name the one before produced. *)
Inductive linked : string -> list BijectiveTransform -> string -> Prop :=
| linked_nil a : linked a [] a
| linked_cons a b c f finv flj ts :
    linked b ts c ->
    linked a (coordinatewise ([a], [b]) f finv flj :: ts) c.

(** ** Words for the statement on evaluation *)

(** A transform renames cleanly from the names [names] when its inverse map
    returns one value per input name, as a Python dictionary keyed by the
    input names does, and every name it produces that is already among
    [names] is one that it consumes: no produced name hides a name that is
    left in place. *)
Definition renames_cleanly (names : list string) (t : BijectiveTransform) : Prop :=
  (forall vals, length vals = length (name_mapping t).2 ->
     length (inverse_transform_func t vals) = length (name_mapping t).1) /\
  (forall n, n ∈ (name_mapping t).2 -> n ∈ names -> n ∈ (name_mapping t).1).

(** The same along a chain, each transform seen from the names that the
    transforms before it left. *)
Fixpoint chain_renames_cleanly (names : list string) (ts : list BijectiveTransform)
  : Prop :=
  match ts with
  | [] => True
  | t :: ts' =>
      renames_cleanly names t /\ chain_renames_cleanly (propagate_name t names) ts'
  end.

(** The priors that the concrete classes build: every object of the tree is
    the value that the constructor of its class returns on the object's own
    parts, and the transforms of every Sequential rename cleanly.  An object
    of the base class is not among them: by its docstring the base class
    should not be used directly, and its methods raise
    [NotImplementedError]. *)
Fixpoint constructed (p : Prior) : Prop :=
  match p with
  | MkPrior _ => False
  | MkLogistic ns => LogisticDistribution ns = Ok (MkLogistic ns)
  | MkStandardNormal ns => StandardNormalDistribution ns = Ok (MkStandardNormal ns)
  | MkLogisticSimplex ns => LogisticSimplexDistribution ns = Ok (MkLogisticSimplex ns)
  | MkSequential ns base_prior transforms =>
      constructed base_prior /\
      SequentialTransformPrior base_prior (Some transforms) =
        Ok (MkSequential ns base_prior transforms) /\
      chain_renames_cleanly (parameter_names base_prior) transforms
  | MkCombine ns priors =>
      CombinePrior priors = Ok (MkCombine ns priors) /\
      (fix each (priors : list Prior) : Prop :=
         match priors with
         | [] => True
         | q :: priors' => constructed q /\ each priors'
         end) priors
  end.

(** ** A concrete runtime

    A deterministic stand-in for [jax.random] and a float rendering, for the
    closed examples.  Every draw of the uniform sampler is its lower bound;
    every float is rendered by the same text, so the intermediate names
    differ from Python's, which no property below depends on. *)

Definition constant_uniform (n : nat) (lo : R) : list Float := replicate n (Finite lo).

Definition constant_random : JaxRandom.
Proof.
  refine {| PRNGKeyArray := Z;
            PRNGKey := fun seed => seed;
            split := fun key => (2 * key, 2 * key + 1)%Z;
            uniform := fun _ n lo _ => constant_uniform n lo;
            normal := fun _ n => replicate n (Finite 0);
            dirichlet := fun _ alpha n => replicate n alpha |}.
  - intros _ n lo _. apply length_replicate.
  - intros _ n lo hi v Hlt Hv. apply elem_of_replicate in Hv as [-> _].
    exists lo. split; [reflexivity | lra].
  - intros _ n. apply length_replicate.
  - intros _ alpha n. apply length_replicate.
  - intros _ alpha n row Hrow. by apply elem_of_replicate in Hrow as [-> _].
Defined.

Definition constant_format : FloatFormat := fun _ => "f".

(** * Properties *)

(** ** Sequential composite: density *)

Lemma inverse_loop_chain ts : forall z output,
  inverse_loop ts z output =
  (zl ← inversion_chain ts z; Ok (zl.1, foldl fadd output zl.2)).
Proof.
  induction ts as [|t ts IH]; intros z output; simpl; [reflexivity|].
  destruct (inverse t z) as [[z' lj]|e]; simpl; [|reflexivity].
  rewrite IH.
  destruct (inversion_chain ts z') as [[zb ljs]|e]; reflexivity.
Qed.

(** C1. The log-density of a Sequential composite is the sum of the
    log-Jacobian terms that the inverses return, taken in reverse declared
    order, plus the base's log-density at the values the chain reaches; an
    exception of the chain or of the base is the composite's. *)
Theorem sequential_log_prob_is_jacobians_plus_base names base ts z :
  log_prob (MkSequential names base ts) z =
  (zl ← inversion_chain (rev ts) z;
   lp ← log_prob base zl.1;
   Ok (fadd (fsum zl.2) lp)).
Proof.
  simpl. rewrite inverse_loop_chain.
  destruct (inversion_chain (rev ts) z) as [[zb ljs]|e]; reflexivity.
Qed.

(** ** Combine composite: construction *)

Lemma foldl_names_concat priors : forall acc,
  foldl (fun names prior => names ++ parameter_names prior) acc priors =
  acc ++ concat (map parameter_names priors).
Proof.
  induction priors as [|p ps IH]; intros acc; simpl.
  - by rewrite app_nil_r.
  - by rewrite IH, <- app_assoc.
Qed.

Lemma elem_of_concat (x : string) (ls : list (list string)) :
  x ∈ concat ls <-> exists i l, ls !! i = Some l /\ x ∈ l.
Proof.
  induction ls as [|a ls IH]; simpl.
  - split; [by intros ?%elem_of_nil | by intros (i & l & ? & _)].
  - rewrite elem_of_app, IH. split.
    + intros [Ha | (i & l & Hi & Hl)]; [by exists 0, a | by exists (S i), l].
    + intros ([|i] & l & Hi & Hl); simplify_eq/=; [by left | right; eauto].
Qed.

Lemma NoDup_concat (ls : list (list string)) :
  NoDup (concat ls) <-> Forall NoDup ls /\ pairwise_disjoint ls.
Proof.
  induction ls as [|a ls IH]; simpl.
  - split; [|intros; constructor].
    intros _. split; [constructor | by intros i j ? ? _ ?].
  - rewrite NoDup_app, IH, Forall_cons. split.
    + intros (Ha & Hfresh & Hls & Hdisj). split_and!; [done..|].
      intros [|i] [|j] u v Hij Hu Hv; simplify_eq/=; intros x Hxu Hxv.
      * apply (Hfresh x Hxu), elem_of_concat; eauto.
      * apply (Hfresh x Hxv), elem_of_concat; eauto.
      * apply (Hdisj i j u v ltac:(congruence) Hu Hv x Hxu Hxv).
    + intros ((Ha & Hls) & Hdisj). split_and!; [done| |done|].
      * intros x Hxa (i & l & Hi & Hxl)%elem_of_concat.
        by apply (Hdisj 0 (S i) a l ltac:(done) eq_refl Hi x).
      * intros i j u v Hij Hu Hv. apply (Hdisj (S i) (S j)); [congruence|done..].
Qed.

(** C5, as the code has it.  Constructing a Combine never fails: its
    [parameter_names] is the concatenation of the children's name lists in
    order, and it is free of duplicates exactly when every child's list is
    and the lists are pairwise disjoint. *)
Theorem CombinePrior_names_concat priors :
  exists p, CombinePrior priors = Ok p /\
    parameter_names p = concat (map parameter_names priors) /\
    (NoDup (parameter_names p) <->
     Forall NoDup (map parameter_names priors) /\
     pairwise_disjoint (map parameter_names priors)).
Proof.
  eexists. split; [reflexivity|]. simpl. rewrite foldl_names_concat. simpl.
  split; [reflexivity | apply NoDup_concat].
Qed.

(** C5, refuted as stated: two children that both name "x" combine without
    an error, and the composite lists "x" twice. *)
Lemma CombinePrior_accepts_shared_name :
  exists a b p,
    LogisticDistribution ["x"] = Ok a /\
    StandardNormalDistribution ["x"] = Ok b /\
    CombinePrior [a; b] = Ok p /\
    parameter_names p = ["x"; "x"] /\
    ~ NoDup (parameter_names p).
Proof.
  eexists _, _, _. split_and!; [reflexivity..|].
  simpl. intros Hnd. apply NoDup_cons in Hnd as [Hin _].
  apply Hin. by left.
Qed.

(** ** Facts about the float operations *)

Arguments fneg : simpl never.
Arguments fabs : simpl never.
Arguments fadd : simpl never.
Arguments fsub : simpl never.
Arguments fmul : simpl never.
Arguments fdiv : simpl never.
Arguments flog : simpl never.
Arguments fexp : simpl never.
Arguments fpow : simpl never.
Arguments flt : simpl never.
Arguments feqb : simpl never.

Lemma rcmp_Lt a b : (a < b)%R -> rcmp a b = Lt.
Proof. intros. unfold rcmp. destruct (total_order_T a b) as [[?|?]|?]; [done|lra..]. Qed.

Lemma rcmp_Gt a b : (b < a)%R -> rcmp a b = Gt.
Proof. intros. unfold rcmp. destruct (total_order_T a b) as [[?|?]|?]; [lra..|done]. Qed.

Lemma rcmp_Eq a : rcmp a a = Eq.
Proof. unfold rcmp. destruct (total_order_T a a) as [[?|?]|?]; [lra|done|lra]. Qed.

Lemma flog_pos r : (0 < r)%R -> flog (Finite r) = Finite (ln r).
Proof. intros. unfold flog. by rewrite rcmp_Gt. Qed.

Lemma flog_zero : flog (Finite 0) = NInf.
Proof. unfold flog. by rewrite rcmp_Eq. Qed.

Lemma flog_neg r : (r < 0)%R -> flog (Finite r) = NaN.
Proof. intros. unfold flog. by rewrite rcmp_Lt. Qed.

Lemma fdiv_finite a b : b ≠ 0%R -> fdiv (Finite a) (Finite b) = Finite (a / b).
Proof.
  intros. unfold fdiv, rcmp.
  destruct (total_order_T b 0) as [[?|?]|?]; done.
Qed.

Lemma fadd_NaN_r x : fadd x NaN = NaN.
Proof. by destruct x. Qed.

Lemma fadd_zero_l x : fadd (Finite 0) x = x.
Proof. destruct x; unfold fadd; [|done..]. f_equal. lra. Qed.

(** ** The logistic simplex leaf *)

(** C10. The log-density of a constructed [LogisticSimplexDistribution] is
    [log 2] on every dictionary that holds its two names, whatever the
    values; it is never minus infinity. *)
Theorem LogisticSimplex_log_prob_constant names p (z : gmap string Float) :
  LogisticSimplexDistribution names = Ok p ->
  (forall n, n ∈ names -> is_Some (z !! n)) ->
  log_prob p z = Ok (Finite (ln 2)) /\ log_prob p z ≠ Ok NInf.
Proof.
  intros Hp Hz.
  destruct names as [|a [|b [|c names]]]; try discriminate Hp.
  injection Hp as <-.
  destruct (Hz a) as [va Ha]; [set_solver|].
  destruct (Hz b) as [vb Hb]; [set_solver|].
  assert (Hlp : log_prob (MkLogisticSimplex [a; b]) z = Ok (Finite (ln 2))).
  { cbn. unfold getitem. rewrite Ha. cbn. rewrite Hb. cbn.
    by rewrite flog_pos by lra. }
  rewrite Hlp. split; [reflexivity | discriminate].
Qed.

Lemma LogisticSimplex_log_prob_witness :
  log_prob (MkLogisticSimplex ["a"; "b"])
           (<["a" := Finite 1000]> (<["b" := NaN]> ∅)) = Ok (Finite (ln 2)) /\
  log_prob (MkLogisticSimplex ["a"; "b"])
           (<["a" := Finite 1000]> (<["b" := NaN]> ∅)) ≠ Ok NInf.
Proof.
  apply (LogisticSimplex_log_prob_constant ["a"; "b"]); [reflexivity|].
  intros n Hn. apply elem_of_cons in Hn as [->|Hn].
  - exists (Finite 1000). apply lookup_insert_eq.
  - apply list_elem_of_singleton in Hn as ->. exists NaN.
    rewrite lookup_insert_ne by discriminate. apply lookup_insert_eq.
Defined.

(** Whatever the dictionary, a value that [log_prob] returns is [log 2]. *)
Lemma LogisticSimplex_log_prob_value names (z : gmap string Float) v :
  log_prob (MkLogisticSimplex names) z = Ok v -> v = Finite (ln 2).
Proof.
  cbn. destruct (index names 0) as [a|]; [cbn|discriminate].
  destruct (getitem z a); [cbn|discriminate].
  destruct (index names 1) as [b|]; [cbn|discriminate].
  destruct (getitem z b); [cbn|discriminate].
  rewrite flog_pos by lra. congruence.
Qed.

Section SimplexSampling.
Context `{JaxRandom}.

(** C9. The sampler of [LogisticSimplexDistribution] returns one and the
    same batch for every key and every requested number of samples. *)
Theorem LogisticSimplex_sample_ignores_key names :
  exists batch, forall (key : PRNGKeyArray) (n : nat),
    sample (MkLogisticSimplex names) key n = Ok batch.
Proof. eexists. intros key n. reflexivity. Qed.

Lemma length_column j rows : length (column j rows) = length rows.
Proof. unfold column. apply length_map. Qed.

(** C3 at the simplex leaf: asked for [n] samples, the constructed
    [LogisticSimplexDistribution(["a", "b"])] returns two arrays of a
    thousand values each. *)
Theorem LogisticSimplex_sample_length (key : PRNGKeyArray) (n : nat) :
  exists d za zb,
    LogisticSimplexDistribution ["a"; "b"] = Ok (MkLogisticSimplex ["a"; "b"]) /\
    sample (MkLogisticSimplex ["a"; "b"]) key n = Ok d /\
    d !! "a" = Some za /\ d !! "b" = Some zb /\
    length za = 1000 /\ length zb = 1000.
Proof.
  eexists _, _, _. split; [reflexivity|]. split; [reflexivity|].
  unfold add_name, update. cbn [zip zip_with foldl fst snd].
  split; [by rewrite lookup_insert_ne, lookup_insert_eq|].
  split; [by rewrite lookup_insert_eq|].
  rewrite !length_map, length_zip_with, !length_column, !length_map,
    dirichlet_shape.
  split; [reflexivity | apply Nat.min_id].
Qed.

End SimplexSampling.

(** ** The simplex prior *)

Section Simplex.
Context `{FloatFormat}.

(** C4 on the code: with two names, [SimplexPrior] builds its two uniform
    children and their Combine, and then calls the Sequential constructor
    without its [transforms] argument, which raises [TypeError]. *)
Theorem SimplexPrior_raises a b :
  SimplexPrior [a; b] =
  Raise (TypeError "SequentialTransformPrior.__init__() missing 1 required positional argument: 'transforms'").
Proof. reflexivity. Qed.

(** No list of names constructs a [SimplexPrior]. *)
Lemma SimplexPrior_never_constructs names p : SimplexPrior names ≠ Ok p.
Proof.
  destruct names as [|a [|b [|c names]]]; discriminate.
Qed.

End Simplex.

(** ** Tracing the leaves *)

(** Induction on a prior tree, with the children of a Combine covered. *)
Lemma Prior_tree_ind (P : Prior -> Prop) :
  (forall ns, P (MkPrior ns)) ->
  (forall ns, P (MkLogistic ns)) ->
  (forall ns, P (MkStandardNormal ns)) ->
  (forall ns, P (MkLogisticSimplex ns)) ->
  (forall ns base ts, P base -> P (MkSequential ns base ts)) ->
  (forall ns priors, Forall P priors -> P (MkCombine ns priors)) ->
  forall p, P p.
Proof.
  intros H1 H2 H3 H4 Hseq Hcomb. fix IH 1.
  intros [ns|ns|ns|ns|ns base ts|ns priors];
    [apply H1 | apply H2 | apply H3 | apply H4 | apply Hseq, IH |].
  apply Hcomb.
  induction priors as [|q priors IHps]; constructor; [apply IH | exact IHps].
Qed.

Lemma append_insert output prior (h : gmap nat (list Prior)) acc :
  h !! output = Some acc -> append output prior h = <[output := acc ++ [prior]]> h.
Proof.
  intros Hacc. unfold append. apply map_eq. intros i.
  rewrite lookup_alter, lookup_insert.
  destruct (decide (output = i)) as [->|]; [by rewrite Hacc | done].
Qed.

(** A call appends the leaves of the tree, in depth-first order, to the list
    it was handed, and returns that same list. *)
Lemma trace_prior_parent_appends p :
  forall output (h : gmap nat (list Prior)) acc,
    h !! output = Some acc ->
    trace_prior_parent p output h = (output, <[output := acc ++ leaves p]> h).
Proof.
  induction p as [ns|ns|ns|ns|ns base ts IH|ns priors IH] using Prior_tree_ind;
    intros output h acc Hacc.
  1-4: simpl; f_equal; by apply append_insert.
  - simpl. by apply IH.
  - simpl. revert h acc Hacc.
    induction IH as [|q priors Hq _ IHps]; intros h acc Hacc.
    + by rewrite app_nil_r, insert_id.
    + rewrite (Hq output h acc Hacc). cbn [fst snd].
      rewrite (IHps _ (acc ++ leaves q)) by apply lookup_insert_eq.
      by rewrite insert_insert_eq, <- app_assoc.
Qed.

Lemma call_fresh_leaves p (h : gmap nat (list Prior)) :
  (call_fresh p h).1 = leaves p.
Proof.
  unfold call_fresh.
  rewrite (trace_prior_parent_appends p _ _ []) by apply lookup_insert_eq.
  cbn [fst snd]. by rewrite lookup_insert_eq.
Qed.

Lemma call_default_leaves p (h : gmap nat (list Prior)) acc :
  h !! default_output = Some acc ->
  call_default p h = (acc ++ leaves p, <[default_output := acc ++ leaves p]> h).
Proof.
  intros Hacc. unfold call_default.
  rewrite (trace_prior_parent_appends p _ _ acc Hacc).
  cbn [fst snd]. by rewrite lookup_insert_eq.
Qed.

Section TraceUniform.
Context `{FloatFormat}.

Lemma uniform_children_leaves specs :
  exists ps, uniform_children specs = Ok ps /\
    forall ns, leaves (MkCombine ns ps) = map uniform_leaf specs.
Proof.
  induction specs as [|[[a b] n] specs (ps & Hps & Hleaves)].
  - exists []. by split.
  - eexists. unfold uniform_children in *. cbn [mapM]. rewrite Hps. cbn.
    split; [reflexivity|]. intros ns. specialize (Hleaves ns).
    cbn in *. by rewrite Hleaves.
Qed.

(** C8 on the code.  A Combine of [k] uniform priors is constructed; traced
    into a new empty list it yields its [k] logistic leaves in construction
    order, and so does the first call that leaves [output] to its default.
    The default list is one object kept between calls: the second such call
    returns [2k] priors, the [k] leaves twice. *)
Theorem trace_prior_parent_default_accumulates
    (specs : list (Float * Float * string)) (h : gmap nat (list Prior)) :
  exists ps c,
    uniform_children specs = Ok ps /\ CombinePrior ps = Ok c /\
    (call_fresh c h).1 = map uniform_leaf specs /\
    let first := call_default c initial_store in
    let second := call_default c first.2 in
    first.1 = map uniform_leaf specs /\
    second.1 = map uniform_leaf specs ++ map uniform_leaf specs /\
    length second.1 = 2 * length specs.
Proof.
  destruct (uniform_children_leaves specs) as (ps & Hps & Hleaves).
  eexists ps, _. split; [exact Hps|]. split; [reflexivity|].
  split; [by rewrite call_fresh_leaves|].
  rewrite (call_default_leaves _ initial_store []) by reflexivity.
  cbn [fst snd app].
  rewrite (call_default_leaves _ _ (leaves (MkCombine _ ps)))
    by apply lookup_insert_eq.
  cbn [fst snd]. rewrite !Hleaves.
  split_and!; [done..|]. rewrite length_app, length_map. lia.
Qed.

End TraceUniform.

(** ** Densities through a chain of one-name transforms *)

Lemma inverse_single a b f finv flj (y : gmap string Float) v :
  y !! b = Some v ->
  inverse (coordinatewise ([a], [b]) f finv flj) y =
  Ok (<[a := finv v]> (delete b y), flj v).
Proof.
  intros Hv. unfold inverse, getitem. cbn. rewrite Hv. cbn.
  unfold fsum. cbn. by rewrite fadd_zero_l.
Qed.

Lemma logistic_log_prob name (z : gmap string Float) v :
  z !! name = Some v -> log_prob (MkLogistic [name]) z = Ok (logistic_log_density v).
Proof. intros Hv. cbn. unfold getitem. by rewrite Hv. Qed.

Section UniformDensity.
Context `{FloatFormat}.

Lemma UniformPrior_log_prob_unfold xmin xmax name (z : gmap string Float) v :
  z !! name = Some v ->
  exists p, UniformPrior xmin xmax [name] = Ok p /\
    log_prob p z = Ok (uniform_log_prob xmin xmax v).
Proof.
  intros Hv. eexists. split; [reflexivity|].
  cbn [log_prob rev app inverse_loop].
  unfold OffsetTransform, ScaleTransform, LogitTransform.
  rewrite (inverse_single _ _ _ _ _ z v Hv). cbn [mbind result_bind fst snd].
  rewrite (inverse_single _ _ _ _ _ _ _ (lookup_insert_eq _ _ _)).
  cbn [mbind result_bind fst snd].
  rewrite (inverse_single _ _ _ _ _ _ _ (lookup_insert_eq _ _ _)).
  cbn [mbind result_bind fst snd].
  unfold index. cbn [lookup list_lookup mbind result_bind].
  unfold getitem. rewrite lookup_insert_eq. reflexivity.
Qed.

End UniformDensity.

(** ** The logit over a logistic base *)

Lemma fneg_finite a : fneg (Finite a) = Finite (- a).
Proof. reflexivity. Qed.

Lemma fadd_finite a b : fadd (Finite a) (Finite b) = Finite (a + b).
Proof. reflexivity. Qed.

Lemma fsub_finite a b : fsub (Finite a) (Finite b) = Finite (a - b).
Proof. reflexivity. Qed.

Lemma fmul_finite a b : fmul (Finite a) (Finite b) = Finite (a * b).
Proof. reflexivity. Qed.

Lemma fexp_finite a : fexp (Finite a) = Finite (exp a).
Proof. reflexivity. Qed.

Lemma fadd_NaN_l x : fadd NaN x = NaN.
Proof. by destruct x. Qed.

Lemma fsub_NaN_l x : fsub NaN x = NaN.
Proof. by destruct x. Qed.

Lemma unit_ratio a b x :
  (a < b)%R -> (a < x < b)%R -> (0 < (x - a) / (b - a) < 1)%R.
Proof.
  intros Hab [Hax Hxb].
  assert (Hi : (0 < / (b - a))%R) by (apply Rinv_0_lt_compat; lra).
  assert (Hone : ((b - a) * / (b - a) = 1)%R) by (apply Rinv_r; lra).
  unfold Rdiv. split; nra.
Qed.

Lemma logit_interior u : (0 < u < 1)%R -> logit (Finite u) = Finite (ln (u / (1 - u))).
Proof.
  intros [H0 H1]. unfold logit.
  rewrite fsub_finite, fdiv_finite by lra.
  apply flog_pos, Rdiv_lt_0_compat; lra.
Qed.

Lemma logit_log_jacobian_interior u :
  (0 < u < 1)%R -> logit_log_jacobian (Finite u) = Finite (- (ln u + ln (1 - u))).
Proof.
  intros [H0 H1]. unfold logit_log_jacobian.
  by rewrite fsub_finite, !flog_pos by lra.
Qed.

Lemma logistic_log_density_finite b :
  logistic_log_density (Finite b) = Finite (- b - 2 * ln (1 + exp (- b))).
Proof.
  unfold logistic_log_density.
  rewrite fneg_finite, fexp_finite, fadd_finite, flog_pos; [reflexivity|].
  pose proof (exp_pos (- b)). lra.
Qed.

(** The logistic density at the logit of [u] is the log of [u (1 - u)], the
    term that the logit's log-Jacobian takes away. *)
Lemma logistic_at_logit u :
  (0 < u < 1)%R ->
  (- ln (u / (1 - u)) - 2 * ln (1 + exp (- ln (u / (1 - u)))) = ln u + ln (1 - u))%R.
Proof.
  intros [H0 H1].
  assert (Hr : (0 < u / (1 - u))%R) by (apply Rdiv_lt_0_compat; lra).
  rewrite exp_Ropp, exp_ln by done.
  replace (1 + / (u / (1 - u)))%R with (/ u)%R by (field; lra).
  rewrite ln_Rinv by done.
  unfold Rdiv. rewrite ln_mult, ln_Rinv; [lra|lra|lra|].
  apply Rinv_0_lt_compat. lra.
Qed.

Lemma through_logit_interior lj u :
  (0 < u < 1)%R -> through_logit (Finite lj) (Finite u) = Finite lj.
Proof.
  intros Hu. unfold through_logit.
  rewrite logit_interior, logit_log_jacobian_interior, logistic_log_density_finite
    by done.
  rewrite logistic_at_logit by done.
  rewrite !fadd_finite. f_equal. lra.
Qed.

Lemma through_logit_outside lj u :
  (u < 0 \/ 1 < u)%R -> through_logit lj (Finite u) = NaN.
Proof.
  intros Hu. unfold through_logit.
  assert (Hlj : logit_log_jacobian (Finite u) = NaN).
  { unfold logit_log_jacobian. rewrite fsub_finite.
    destruct Hu.
    - by rewrite (flog_neg u), fadd_NaN_l.
    - by rewrite (flog_neg (1 - u)), fadd_NaN_r by lra. }
  by rewrite Hlj, fadd_NaN_r, fadd_NaN_l.
Qed.

Lemma uniform_log_prob_interior a b x :
  (a < b)%R -> (a < x < b)%R ->
  uniform_log_prob (Finite a) (Finite b) (Finite x) = Finite (- ln (b - a)).
Proof.
  intros Hab Hx. unfold uniform_log_prob. cbv zeta.
  rewrite !fsub_finite, fdiv_finite by lra.
  unfold fabs. rewrite Rabs_pos_eq, flog_pos, fneg_finite, !fadd_finite by lra.
  rewrite through_logit_interior by by apply unit_ratio.
  f_equal. lra.
Qed.

Lemma uniform_log_prob_outside a b x :
  (a < b)%R -> (x < a \/ b < x)%R ->
  uniform_log_prob (Finite a) (Finite b) (Finite x) = NaN.
Proof.
  intros Hab Hx. unfold uniform_log_prob. cbv zeta.
  rewrite !fsub_finite, fdiv_finite by lra.
  apply through_logit_outside.
  assert (Hi : (0 < / (b - a))%R) by (apply Rinv_0_lt_compat; lra).
  assert (Hone : ((b - a) * / (b - a) = 1)%R) by (apply Rinv_r; lra).
  unfold Rdiv. destruct Hx; [left | right]; nra.
Qed.

(** At the two ends of the unit interval the logit is infinite, and the
    infinities of the logit's log-Jacobian and of the logistic density
    cancel into NaN, whatever was gathered before. *)
Lemma logistic_log_density_NInf : logistic_log_density NInf = NaN.
Proof.
  unfold logistic_log_density.
  change (fexp (fneg NInf)) with PInf. change (fadd (Finite 1) PInf) with PInf.
  change (flog PInf) with PInf. unfold fmul, inf_signed.
  by rewrite (rcmp_Gt 2 0) by lra.
Qed.

Lemma logistic_log_density_PInf : logistic_log_density PInf = NInf.
Proof.
  unfold logistic_log_density.
  change (fexp (fneg PInf)) with (Finite 0). rewrite fadd_finite, flog_pos by lra.
  reflexivity.
Qed.

Lemma logit_zero : logit (Finite 0) = NInf.
Proof.
  unfold logit. rewrite fsub_finite, fdiv_finite by lra.
  replace (0 / (1 - 0))%R with 0%R by (field; lra).
  apply flog_zero.
Qed.

Lemma logit_one : logit (Finite 1) = PInf.
Proof.
  unfold logit. rewrite fsub_finite.
  replace (1 - 1)%R with 0%R by lra.
  unfold fdiv. rewrite rcmp_Eq. unfold inf_signed. by rewrite rcmp_Gt by lra.
Qed.

Lemma logit_log_jacobian_one : logit_log_jacobian (Finite 1) = PInf.
Proof.
  unfold logit_log_jacobian. rewrite fsub_finite.
  replace (1 - 1)%R with 0%R by lra.
  by rewrite flog_zero, flog_pos by lra.
Qed.

Lemma through_logit_boundary lj u :
  (u = 0 \/ u = 1)%R -> through_logit lj (Finite u) = NaN.
Proof.
  intros [-> | ->]; unfold through_logit.
  - by rewrite logit_zero, logistic_log_density_NInf, fadd_NaN_r.
  - rewrite logit_one, logistic_log_density_PInf, logit_log_jacobian_one.
    by destruct lj.
Qed.

Lemma uniform_log_prob_boundary a b x :
  (a < b)%R -> (x = a \/ x = b)%R ->
  uniform_log_prob (Finite a) (Finite b) (Finite x) = NaN.
Proof.
  intros Hab Hx. unfold uniform_log_prob. cbv zeta.
  rewrite !fsub_finite, fdiv_finite by lra.
  apply through_logit_boundary.
  destruct Hx as [-> | ->]; [left | right]; field; lra.
Qed.

(** So the density of [UniformPrior(a, b)] is NaN at every finite point
    that is not strictly between the bounds. *)
Lemma uniform_log_prob_not_inside a b x :
  (a < b)%R -> (x <= a \/ b <= x)%R ->
  uniform_log_prob (Finite a) (Finite b) (Finite x) = NaN.
Proof.
  intros Hab [[Hx | Hx] | [Hx | Hx]];
    first [ apply uniform_log_prob_outside; lra
          | apply uniform_log_prob_boundary; [lra | by auto] ].
Qed.

(** ** Sampling through a chain of one-name transforms *)

Lemma map_lookup_seq {A} (d : A) (s : list A) :
  map (fun i => default d (s !! i)) (seq 0 (length s)) = s.
Proof.
  induction s as [|x s IH]; [reflexivity|].
  cbn [length seq map]. f_equal.
  rewrite <- seq_shift, map_map. exact IH.
Qed.

Lemma forward_batch_single n a b f finv flj (x : gmap string (list Float)) s :
  x !! a = Some s -> length s = n ->
  forward_batch n (coordinatewise ([a], [b]) f finv flj) x =
  Ok (<[b := map f s]> (delete a x)).
Proof.
  intros Hs <-. unfold forward_batch, getitem. cbn. rewrite Hs. cbn.
  do 3 f_equal. unfold column. rewrite map_map. cbn.
  rewrite <- (map_lookup_seq NaN s) at 2. by rewrite map_map.
Qed.

Lemma batch_size_singleton name (s : list Float) :
  batch_size (<[name := s]> ∅) = Ok (length s).
Proof.
  unfold batch_size. by rewrite insert_empty, map_to_list_singleton.
Qed.

Lemma sigmoid_finite t :
  exists r, sigmoid (Finite t) = Finite r /\ (0 < r < 1)%R.
Proof.
  pose proof (exp_pos (- t)) as He.
  exists (1 / (1 + exp (- t)))%R. split.
  - unfold sigmoid. rewrite fneg_finite, fexp_finite, fadd_finite.
    apply fdiv_finite. lra.
  - assert (Hi : (0 < / (1 + exp (- t)))%R) by (apply Rinv_0_lt_compat; lra).
    assert (Hone : ((1 + exp (- t)) * / (1 + exp (- t)) = 1)%R) by (apply Rinv_r; lra).
    unfold Rdiv. split; nra.
Qed.

(** A draw of the unit uniform sampler, sent through the logistic leaf and
    the forward chain of [UniformPrior(a, b)], lands in [[a, b]]. *)
Lemma uniform_forward_range a b u :
  (a < b)%R -> (0 <= u < 1)%R ->
  exists r, uniform_forward (Finite a) (Finite b) (logit (Finite u)) = Finite r /\
            (a <= r <= b)%R.
Proof.
  intros Hab [[H0 | <-] H1]; unfold uniform_forward.
  - rewrite logit_interior by lra.
    destruct (sigmoid_finite (ln (u / (1 - u)))) as (r & -> & Hr).
    rewrite fsub_finite, fmul_finite, fadd_finite. eexists. split; [reflexivity|]. nra.
  - rewrite logit_zero.
    replace (sigmoid NInf) with (Finite 0) by reflexivity.
    rewrite fsub_finite, fmul_finite, fadd_finite. eexists. split; [reflexivity|]. nra.
Qed.

(** ** The value of [log(1/20)]

    [exp 2.9957 < 20 < exp 2.9958], by eighteen squarings from
    [1 + t < exp t < 1 / (1 - t)] at [t = x / 2^18], each bound rounded
    outwards to eighteen decimals. *)

Lemma exp_2_9957_lt_20 : (exp 2.9957 < 20)%R.
Proof.
  assert (H0 : (0 < exp (29957 / 2621440000) < (7812589279837439 / 7812500000000000))%R).
  { split; [apply exp_pos|].
    pose proof (exp_ineq1 (- (29957 / 2621440000)) ltac:(lra)) as Hlow.
    rewrite exp_Ropp in Hlow.
    pose proof (exp_pos (29957 / 2621440000)) as Hpos.
    apply (Rmult_lt_reg_r (/ exp (29957 / 2621440000))); [by apply Rinv_0_lt_compat|].
    rewrite Rinv_r by lra. nra. }
  assert (H1 : (0 < exp (29957 / 1310720000) < (250005713942244859 / 250000000000000000))%R).
  { replace (29957 / 1310720000)%R with ((29957 / 2621440000) + (29957 / 2621440000))%R by lra.
    rewrite exp_plus. destruct H0 as [Hp Hq]. split; [nra|].
    apply Rlt_le_trans with ((7812589279837439 / 7812500000000000) * (7812589279837439 / 7812500000000000))%R; [|lra].
    apply Rmult_le_0_lt_compat; lra. }
  clear H0.
  assert (H2 : (0 < exp (29957 / 655360000) < (125005714007543131 / 125000000000000000))%R).
  { replace (29957 / 655360000)%R with ((29957 / 1310720000) + (29957 / 1310720000))%R by lra.
    rewrite exp_plus. destruct H1 as [Hp Hq]. split; [nra|].
    apply Rlt_le_trans with ((250005713942244859 / 250000000000000000) * (250005713942244859 / 250000000000000000))%R; [|lra].
    apply Rmult_le_0_lt_compat; lra. }
  clear H1.
  assert (H3 : (0 < exp (29957 / 327680000) < (1000091426210282557 / 1000000000000000000))%R).
  { replace (29957 / 327680000)%R with ((29957 / 655360000) + (29957 / 655360000))%R by lra.
    rewrite exp_plus. destruct H2 as [Hp Hq]. split; [nra|].
    apply Rlt_le_trans with ((125005714007543131 / 125000000000000000) * (125005714007543131 / 125000000000000000))%R; [|lra].
    apply Rmult_le_0_lt_compat; lra. }
  clear H2.
  assert (H4 : (0 < exp (29957 / 163840000) < (1000182860779317041 / 1000000000000000000))%R).
  { replace (29957 / 163840000)%R with ((29957 / 327680000) + (29957 / 327680000))%R by lra.
    rewrite exp_plus. destruct H3 as [Hp Hq]. split; [nra|].
    apply Rlt_le_trans with ((1000091426210282557 / 1000000000000000000) * (1000091426210282557 / 1000000000000000000))%R; [|lra].
    apply Rmult_le_0_lt_compat; lra. }
  clear H3.
  assert (H5 : (0 < exp (29957 / 81920000) < (200073150999339739 / 200000000000000000))%R).
  { replace (29957 / 81920000)%R with ((29957 / 163840000) + (29957 / 163840000))%R by lra.
    rewrite exp_plus. destruct H4 as [Hp Hq]. split; [nra|].
    apply Rlt_le_trans with ((1000182860779317041 / 1000000000000000000) * (1000182860779317041 / 1000000000000000000))%R; [|lra].
    apply Rmult_le_0_lt_compat; lra. }
  clear H4.
  assert (H6 : (0 < exp (29957 / 40960000) < (1000731643770115001 / 1000000000000000000))%R).
  { replace (29957 / 40960000)%R with ((29957 / 81920000) + (29957 / 81920000))%R by lra.
    rewrite exp_plus. destruct H5 as [Hp Hq]. split; [nra|].
    apply Rlt_le_trans with ((200073150999339739 / 200000000000000000) * (200073150999339739 / 200000000000000000))%R; [|lra].
    apply Rmult_le_0_lt_compat; lra. }
  clear H5.
  assert (H7 : (0 < exp (29957 / 20480000) < (1001463822842836351 / 1000000000000000000))%R).
  { replace (29957 / 20480000)%R with ((29957 / 40960000) + (29957 / 40960000))%R by lra.
    rewrite exp_plus. destruct H6 as [Hp Hq]. split; [nra|].
    apply Rlt_le_trans with ((1000731643770115001 / 1000000000000000000) * (1000731643770115001 / 1000000000000000000))%R; [|lra].
    apply Rmult_le_0_lt_compat; lra. }
  clear H6.
  assert (H8 : (0 < exp (29957 / 10240000) < (125366223557873489 / 125000000000000000))%R).
  { replace (29957 / 10240000)%R with ((29957 / 20480000) + (29957 / 20480000))%R by lra.
    rewrite exp_plus. destruct H7 as [Hp Hq]. split; [nra|].
    apply Rlt_le_trans with ((1001463822842836351 / 1000000000000000000) * (1001463822842836351 / 1000000000000000000))%R; [|lra].
    apply Rmult_le_0_lt_compat; lra. }
  clear H7.
  assert (H9 : (0 < exp (29957 / 5120000) < (502934080293206841 / 500000000000000000))%R).
  { replace (29957 / 5120000)%R with ((29957 / 10240000) + (29957 / 10240000))%R by lra.
    rewrite exp_plus. destruct H8 as [Hp Hq]. split; [nra|].
    apply Rlt_le_trans with ((125366223557873489 / 125000000000000000) * (125366223557873489 / 125000000000000000))%R; [|lra].
    apply Rmult_le_0_lt_compat; lra. }
  clear H8.
  assert (H10 : (0 < exp (29957 / 2560000) < (1011770756481495303 / 1000000000000000000))%R).
  { replace (29957 / 2560000)%R with ((29957 / 5120000) + (29957 / 5120000))%R by lra.
    rewrite exp_plus. destruct H9 as [Hp Hq]. split; [nra|].
    apply Rlt_le_trans with ((502934080293206841 / 500000000000000000) * (502934080293206841 / 500000000000000000))%R; [|lra].
    apply Rmult_le_0_lt_compat; lra. }
  clear H9.
  assert (H11 : (0 < exp (29957 / 1280000) < (102368006367113727 / 100000000000000000))%R).
  { replace (29957 / 1280000)%R with ((29957 / 2560000) + (29957 / 2560000))%R by lra.
    rewrite exp_plus. destruct H10 as [Hp Hq]. split; [nra|].
    apply Rlt_le_trans with ((1011770756481495303 / 1000000000000000000) * (1011770756481495303 / 1000000000000000000))%R; [|lra].
    apply Rmult_le_0_lt_compat; lra. }
  clear H10.
  assert (H12 : (0 < exp (29957 / 640000) < (130990109094717957 / 125000000000000000))%R).
  { replace (29957 / 640000)%R with ((29957 / 1280000) + (29957 / 1280000))%R by lra.
    rewrite exp_plus. destruct H11 as [Hp Hq]. split; [nra|].
    apply Rlt_le_trans with ((102368006367113727 / 100000000000000000) * (102368006367113727 / 100000000000000000))%R; [|lra].
    apply Rmult_le_0_lt_compat; lra. }
  clear H11.
  assert (H13 : (0 < exp (29957 / 320000) < (1098138155561351171 / 1000000000000000000))%R).
  { replace (29957 / 320000)%R with ((29957 / 640000) + (29957 / 640000))%R by lra.
    rewrite exp_plus. destruct H12 as [Hp Hq]. split; [nra|].
    apply Rlt_le_trans with ((130990109094717957 / 125000000000000000) * (130990109094717957 / 125000000000000000))%R; [|lra].
    apply Rmult_le_0_lt_compat; lra. }
  clear H12.
  assert (H14 : (0 < exp (29957 / 160000) < (37684606521865197 / 31250000000000000))%R).
  { replace (29957 / 160000)%R with ((29957 / 320000) + (29957 / 320000))%R by lra.
    rewrite exp_plus. destruct H13 as [Hp Hq]. split; [nra|].
    apply Rlt_le_trans with ((1098138155561351171 / 1000000000000000000) * (1098138155561351171 / 1000000000000000000))%R; [|lra].
    apply Rmult_le_0_lt_compat; lra. }
  clear H13.
  assert (H15 : (0 < exp (29957 / 80000) < (72710633917839613 / 50000000000000000))%R).
  { replace (29957 / 80000)%R with ((29957 / 160000) + (29957 / 160000))%R by lra.
    rewrite exp_plus. destruct H14 as [Hp Hq]. split; [nra|].
    apply Rlt_le_trans with ((37684606521865197 / 31250000000000000) * (37684606521865197 / 31250000000000000))%R; [|lra].
    apply Rmult_le_0_lt_compat; lra. }
  clear H14.
  assert (H16 : (0 < exp (29957 / 40000) < (105736725694681767 / 50000000000000000))%R).
  { replace (29957 / 40000)%R with ((29957 / 80000) + (29957 / 80000))%R by lra.
    rewrite exp_plus. destruct H15 as [Hp Hq]. split; [nra|].
    apply Rlt_le_trans with ((72710633917839613 / 50000000000000000) * (72710633917839613 / 50000000000000000))%R; [|lra].
    apply Rmult_le_0_lt_compat; lra. }
  clear H15.
  assert (H17 : (0 < exp (29957 / 20000) < (4472102064252950161 / 1000000000000000000))%R).
  { replace (29957 / 20000)%R with ((29957 / 40000) + (29957 / 40000))%R by lra.
    rewrite exp_plus. destruct H16 as [Hp Hq]. split; [nra|].
    apply Rlt_le_trans with ((105736725694681767 / 50000000000000000) * (105736725694681767 / 50000000000000000))%R; [|lra].
    apply Rmult_le_0_lt_compat; lra. }
  clear H16.
  assert (H18 : (0 < exp (29957 / 10000) < (19999696873095497971 / 1000000000000000000))%R).
  { replace (29957 / 10000)%R with ((29957 / 20000) + (29957 / 20000))%R by lra.
    rewrite exp_plus. destruct H17 as [Hp Hq]. split; [nra|].
    apply Rlt_le_trans with ((4472102064252950161 / 1000000000000000000) * (4472102064252950161 / 1000000000000000000))%R; [|lra].
    apply Rmult_le_0_lt_compat; lra. }
  clear H17.
  replace 2.9957%R with (29957 / 10000)%R by lra. lra.
Qed.

Lemma exp_2_9958_gt_20 : (20 < exp 2.9958)%R.
Proof.
  assert (H0 : ((1000011428070068359 / 1000000000000000000) < exp (14979 / 1310720000))%R).
  { pose proof (exp_ineq1 (14979 / 1310720000) ltac:(lra)). lra. }
  assert (H1 : ((1000022856270737503 / 1000000000000000000) < exp (14979 / 655360000))%R).
  { replace (14979 / 655360000)%R with ((14979 / 1310720000) + (14979 / 1310720000))%R by lra.
    rewrite exp_plus.
    apply Rle_lt_trans with ((1000011428070068359 / 1000000000000000000) * (1000011428070068359 / 1000000000000000000))%R; [lra|].
    apply Rmult_le_0_lt_compat; lra. }
  clear H0.
  assert (H2 : ((500022856531942059 / 500000000000000000) < exp (14979 / 327680000))%R).
  { replace (14979 / 327680000)%R with ((14979 / 655360000) + (14979 / 655360000))%R by lra.
    rewrite exp_plus.
    apply Rle_lt_trans with ((1000022856270737503 / 1000000000000000000) * (1000022856270737503 / 1000000000000000000))%R; [lra|].
    apply Rmult_le_0_lt_compat; lra. }
  clear H1.
  assert (H3 : ((200018285643490489 / 200000000000000000) < exp (14979 / 163840000))%R).
  { replace (14979 / 163840000)%R with ((14979 / 327680000) + (14979 / 327680000))%R by lra.
    rewrite exp_plus.
    apply Rle_lt_trans with ((500022856531942059 / 500000000000000000) * (500022856531942059 / 500000000000000000))%R; [lra|].
    apply Rmult_le_0_lt_compat; lra. }
  clear H2.
  assert (H4 : ((250045716198505959 / 250000000000000000) < exp (14979 / 81920000))%R).
  { replace (14979 / 81920000)%R with ((14979 / 163840000) + (14979 / 163840000))%R by lra.
    rewrite exp_plus.
    apply Rle_lt_trans with ((200018285643490489 / 200000000000000000) * (200018285643490489 / 200000000000000000))%R; [lra|].
    apply Rmult_le_0_lt_compat; lra. }
  clear H3.
  assert (H5 : ((200073152605516113 / 200000000000000000) < exp (14979 / 40960000))%R).
  { replace (14979 / 40960000)%R with ((14979 / 81920000) + (14979 / 81920000))%R by lra.
    rewrite exp_plus.
    apply Rle_lt_trans with ((250045716198505959 / 250000000000000000) * (250045716198505959 / 250000000000000000))%R; [lra|].
    apply Rmult_le_0_lt_compat; lra. }
  clear H4.
  assert (H6 : ((500365829918876737 / 500000000000000000) < exp (14979 / 20480000))%R).
  { replace (14979 / 20480000)%R with ((14979 / 40960000) + (14979 / 40960000))%R by lra.
    rewrite exp_plus.
    apply Rle_lt_trans with ((200073152605516113 / 200000000000000000) * (200073152605516113 / 200000000000000000))%R; [lra|].
    apply Rmult_le_0_lt_compat; lra. }
  clear H5.
  assert (H7 : ((1001463855001625129 / 1000000000000000000) < exp (14979 / 10240000))%R).
  { replace (14979 / 10240000)%R with ((14979 / 20480000) + (14979 / 20480000))%R by lra.
    rewrite exp_plus.
    apply Rle_lt_trans with ((500365829918876737 / 500000000000000000) * (500365829918876737 / 500000000000000000))%R; [lra|].
    apply Rmult_le_0_lt_compat; lra. }
  clear H6.
  assert (H8 : ((25073246321867901 / 25000000000000000) < exp (14979 / 5120000))%R).
  { replace (14979 / 5120000)%R with ((14979 / 10240000) + (14979 / 10240000))%R by lra.
    rewrite exp_plus.
    apply Rle_lt_trans with ((1001463855001625129 / 1000000000000000000) * (1001463855001625129 / 1000000000000000000))%R; [lra|].
    apply Rmult_le_0_lt_compat; lra. }
  clear H7.
  assert (H9 : ((1005868289787299561 / 1000000000000000000) < exp (14979 / 2560000))%R).
  { replace (14979 / 2560000)%R with ((14979 / 5120000) + (14979 / 5120000))%R by lra.
    rewrite exp_plus.
    apply Rle_lt_trans with ((25073246321867901 / 25000000000000000) * (25073246321867901 / 25000000000000000))%R; [lra|].
    apply Rmult_le_0_lt_compat; lra. }
  clear H8.
  assert (H10 : ((505885508199813423 / 500000000000000000) < exp (14979 / 1280000))%R).
  { replace (14979 / 1280000)%R with ((14979 / 2560000) + (14979 / 2560000))%R by lra.
    rewrite exp_plus.
    apply Rle_lt_trans with ((1005868289787299561 / 1000000000000000000) * (1005868289787299561 / 1000000000000000000))%R; [lra|].
    apply Rmult_le_0_lt_compat; lra. }
  clear H9.
  assert (H11 : ((127960073703291747 / 125000000000000000) < exp (14979 / 640000))%R).
  { replace (14979 / 640000)%R with ((14979 / 1280000) + (14979 / 1280000))%R by lra.
    rewrite exp_plus.
    apply Rle_lt_trans with ((505885508199813423 / 500000000000000000) * (505885508199813423 / 500000000000000000))%R; [lra|].
    apply Rmult_le_0_lt_compat; lra. }
  clear H10.
  assert (H12 : ((261980487394429697 / 250000000000000000) < exp (14979 / 320000))%R).
  { replace (14979 / 320000)%R with ((14979 / 640000) + (14979 / 640000))%R by lra.
    rewrite exp_plus.
    apply Rle_lt_trans with ((127960073703291747 / 125000000000000000) * (127960073703291747 / 125000000000000000))%R; [lra|].
    apply Rmult_le_0_lt_compat; lra. }
  clear H11.
  assert (H13 : ((1098140412406766997 / 1000000000000000000) < exp (14979 / 160000))%R).
  { replace (14979 / 160000)%R with ((14979 / 320000) + (14979 / 320000))%R by lra.
    rewrite exp_plus.
    apply Rle_lt_trans with ((261980487394429697 / 250000000000000000) * (261980487394429697 / 250000000000000000))%R; [lra|].
    apply Rmult_le_0_lt_compat; lra. }
  clear H12.
  assert (H14 : ((1205912365360904299 / 1000000000000000000) < exp (14979 / 80000))%R).
  { replace (14979 / 80000)%R with ((14979 / 160000) + (14979 / 160000))%R by lra.
    rewrite exp_plus.
    apply Rle_lt_trans with ((1098140412406766997 / 1000000000000000000) * (1098140412406766997 / 1000000000000000000))%R; [lra|].
    apply Rmult_le_0_lt_compat; lra. }
  clear H13.
  assert (H15 : ((727112316465165569 / 500000000000000000) < exp (14979 / 40000))%R).
  { replace (14979 / 40000)%R with ((14979 / 80000) + (14979 / 80000))%R by lra.
    rewrite exp_plus.
    apply Rle_lt_trans with ((1205912365360904299 / 1000000000000000000) * (1205912365360904299 / 1000000000000000000))%R; [lra|].
    apply Rmult_le_0_lt_compat; lra. }
  clear H14.
  assert (H16 : ((1057384641510678169 / 500000000000000000) < exp (14979 / 20000))%R).
  { replace (14979 / 20000)%R with ((14979 / 40000) + (14979 / 40000))%R by lra.
    rewrite exp_plus.
    apply Rle_lt_trans with ((727112316465165569 / 500000000000000000) * (727112316465165569 / 500000000000000000))%R; [lra|].
    apply Rmult_le_0_lt_compat; lra. }
  clear H15.
  assert (H17 : ((559031140051332693 / 125000000000000000) < exp (14979 / 10000))%R).
  { replace (14979 / 10000)%R with ((14979 / 20000) + (14979 / 20000))%R by lra.
    rewrite exp_plus.
    apply Rle_lt_trans with ((1057384641510678169 / 500000000000000000) * (1057384641510678169 / 500000000000000000))%R; [lra|].
    apply Rmult_le_0_lt_compat; lra. }
  clear H16.
  assert (H18 : ((20001012195013935857 / 1000000000000000000) < exp (14979 / 5000))%R).
  { replace (14979 / 5000)%R with ((14979 / 10000) + (14979 / 10000))%R by lra.
    rewrite exp_plus.
    apply Rle_lt_trans with ((559031140051332693 / 125000000000000000) * (559031140051332693 / 125000000000000000))%R; [lra|].
    apply Rmult_le_0_lt_compat; lra. }
  clear H17.
  replace 2.9958%R with (14979 / 5000)%R by lra. lra.
Qed.

Lemma ln_one_twentieth_bounds : (-2.9958 < ln (1 / 20) < -2.9957)%R.
Proof.
  replace (1 / 20)%R with (/ 20)%R by lra. rewrite ln_Rinv by lra.
  assert (Hexp : exp (ln 20) = 20%R) by (apply exp_ln; lra).
  pose proof exp_2_9957_lt_20 as Hlo. pose proof exp_2_9958_gt_20 as Hhi.
  rewrite <- Hexp in Hlo, Hhi.
  apply exp_lt_inv in Hlo. apply exp_lt_inv in Hhi. lra.
Qed.

Section UniformContract.
Context `{FloatFormat} `{JaxRandom}.

Lemma UniformPrior_sample_unfold xmin xmax name (key : PRNGKeyArray) n :
  exists p, UniformPrior xmin xmax [name] = Ok p /\
    sample p key n =
    Ok {[ name := map (uniform_forward xmin xmax) (map logit (uniform key n 0 1)) ]}.
Proof.
  eexists. split; [reflexivity|].
  cbn [sample mbind result_bind]. unfold add_name, update. cbn [zip zip_with foldl fst snd].
  unfold vmap_transform. rewrite batch_size_singleton. cbn [mbind result_bind].
  cbn [transform_batch].
  unfold LogitTransform, ScaleTransform, OffsetTransform.
  rewrite (forward_batch_single _ _ _ _ _ _ _ _ (lookup_insert_eq _ _ _) eq_refl).
  cbn [mbind result_bind].
  rewrite (forward_batch_single _ _ _ _ _ _ _ _ (lookup_insert_eq _ _ _))
    by by rewrite !length_map.
  cbn [mbind result_bind].
  rewrite (forward_batch_single _ _ _ _ _ _ _ _ (lookup_insert_eq _ _ _))
    by by rewrite !length_map.
  rewrite !delete_insert_eq, !delete_empty, insert_empty.
  rewrite !map_map. reflexivity.
Qed.

(** C6, as the code has it.  A [UniformPrior(a, b)] with [a < b] is
    constructed; a sample holds under the prior's name one array of the
    requested length whose values all lie in [[a, b]]; the log-density at a
    point strictly between the bounds is [-log(b - a)]; and at the bounds
    themselves, [a] and [b], it is NaN.  For [UniformPrior(-10, 10)] the
    log-density at [0] is [log(1/20)], a number between [-2.9958] and
    [-2.9957]. *)
Theorem UniformPrior_sample_range_and_log_prob (a b : R) (name : string) :
  (a < b)%R ->
  (exists p, UniformPrior (Finite a) (Finite b) [name] = Ok p /\
     (forall (key : PRNGKeyArray) n, exists arr,
        sample p key n = Ok {[ name := arr ]} /\ length arr = n /\
        Forall (fun y => exists r, y = Finite r /\ (a <= r <= b)%R) arr) /\
     (forall (z : gmap string Float) x,
        z !! name = Some (Finite x) -> (a < x < b)%R ->
        log_prob p z = Ok (Finite (- ln (b - a)))) /\
     (forall (z : gmap string Float) x,
        z !! name = Some (Finite x) -> (x = a \/ x = b)%R ->
        log_prob p z = Ok NaN)) /\
  (exists p, UniformPrior (Finite (-10)) (Finite 10) ["x"] = Ok p /\
     forall z : gmap string Float,
       z !! "x" = Some (Finite 0) -> log_prob p z = Ok (Finite (ln (1 / 20)))) /\
  (-2.9958 < ln (1 / 20) < -2.9957)%R.
Proof.
  intros Hab. split; [|split; [|exact ln_one_twentieth_bounds]].
  - assert (exists p, UniformPrior (Finite a) (Finite b) [name] = Ok p) as [p Hp]
      by (eexists; reflexivity).
    exists p. split; [exact Hp|]. split; [|split].
    + intros key n.
      destruct (UniformPrior_sample_unfold (Finite a) (Finite b) name key n)
        as (p' & Hp' & Hs).
      rewrite Hp in Hp'. injection Hp' as <-. rewrite Hs.
      eexists. split; [reflexivity|]. split.
      * by rewrite !length_map, uniform_shape.
      * rewrite !Forall_map. apply Forall_forall. intros v Hv.
        apply uniform_range in Hv as (u & -> & Hu); [|lra].
        by apply uniform_forward_range.
    + intros z x Hz Hx.
      destruct (UniformPrior_log_prob_unfold (Finite a) (Finite b) name z _ Hz)
        as (p' & Hp' & Hl).
      rewrite Hp in Hp'. injection Hp' as <-. rewrite Hl.
      by rewrite uniform_log_prob_interior.
    + intros z x Hz Hx.
      destruct (UniformPrior_log_prob_unfold (Finite a) (Finite b) name z _ Hz)
        as (p' & Hp' & Hl).
      rewrite Hp in Hp'. injection Hp' as <-. rewrite Hl.
      by rewrite uniform_log_prob_boundary.
  - assert (Hz0 : (<["x" := Finite 0]> ∅ : gmap string Float) !! "x" = Some (Finite 0))
      by apply lookup_insert_eq.
    destruct (UniformPrior_log_prob_unfold (Finite (-10)) (Finite 10) "x" _ _ Hz0)
      as (p & Hp & _).
    exists p. split; [exact Hp|]. intros z Hz.
    destruct (UniformPrior_log_prob_unfold (Finite (-10)) (Finite 10) "x" z _ Hz)
      as (p' & Hp' & Hl).
    rewrite Hp in Hp'. injection Hp' as <-. rewrite Hl.
    rewrite uniform_log_prob_interior by lra. do 2 f_equal.
    replace (10 - -10)%R with 20%R by lra.
    replace (1 / 20)%R with (/ 20)%R by lra.
    rewrite ln_Rinv; lra.
Qed.

End UniformContract.

(** ** The power-law prior *)

Lemma flt_finite a b : (a < b)%R -> flt (Finite a) (Finite b) = true.
Proof. intros. unfold flt. by rewrite rcmp_Lt. Qed.

Lemma feqb_finite_ne a b : a ≠ b -> feqb (Finite a) (Finite b) = false.
Proof.
  intros. unfold feqb, rcmp. by destruct (total_order_T a b) as [[?|?]|?].
Qed.

Lemma fpow_pos x y :
  (0 < x)%R -> y ≠ 0%R -> fpow (Finite x) (Finite y) = Finite (Rpower x y).
Proof.
  intros Hx Hy. unfold fpow. rewrite (rcmp_Gt x 0) by done.
  unfold rcmp. by destruct (total_order_T y 0) as [[?|?]|?].
Qed.

Lemma Rpower_lt_base c x y :
  (0 < c)%R -> (0 < x < y)%R -> (Rpower x c < Rpower y c)%R.
Proof.
  intros Hc [Hx Hxy]. unfold Rpower. apply exp_increasing.
  pose proof (ln_increasing x y Hx Hxy). nra.
Qed.

Lemma Rpower_gt_base c x y :
  (c < 0)%R -> (0 < x < y)%R -> (Rpower y c < Rpower x c)%R.
Proof.
  intros Hc [Hx Hxy]. unfold Rpower. apply exp_increasing.
  pose proof (ln_increasing x y Hx Hxy). nra.
Qed.

Lemma power_law_log_prob_interior a b alpha x :
  (0 < a < b)%R -> (a < x < b)%R -> alpha ≠ (-1)%R ->
  power_law_log_prob (Finite a) (Finite b) (Finite alpha) (Finite x) =
  Finite (ln ((1 + alpha) / (Rpower b (1 + alpha) - Rpower a (1 + alpha)))
          + alpha * ln x).
Proof.
  intros [Ha Hab] [Hax Hxb] Halpha. unfold power_law_log_prob. cbv zeta.
  assert (Ha1 : (1 + alpha)%R ≠ 0%R) by lra.
  rewrite fadd_finite, !fpow_pos, !fsub_finite by lra.
  set (c := (1 + alpha)%R) in *.
  set (Pa := Rpower a c). set (Pb := Rpower b c). set (Px := Rpower x c).
  assert (Hcases : (0 < c /\ Pa < Px < Pb \/ c < 0 /\ Pb < Px < Pa)%R).
  { destruct (Rtotal_order 0 c) as [Hc | [Hc | Hc]];
      [left | by destruct Ha1 | right]; (split; [lra|]);
      split; first [apply Rpower_lt_base; lra | apply Rpower_gt_base; lra]. }
  assert (Hw : (Pb - Pa)%R ≠ 0%R) by (destruct Hcases; lra).
  assert (Hnorm : (0 < c / (Pb - Pa))%R).
  { destruct Hcases as [[Hc ?] | [Hc ?]].
    - apply Rdiv_lt_0_compat; lra.
    - replace (c / (Pb - Pa))%R with ((- c) / (Pa - Pb))%R by (field; lra).
      apply Rdiv_lt_0_compat; lra. }
  assert (Hu : (0 < (Px - Pa) / (Pb - Pa) < 1)%R).
  { destruct Hcases as [[Hc ?] | [Hc ?]].
    - apply unit_ratio; lra.
    - replace ((Px - Pa) / (Pb - Pa))%R
        with ((- Px - - Pa) / (- Pb - - Pa))%R by (field; lra).
      apply unit_ratio; lra. }
  rewrite !fdiv_finite by done.
  rewrite !flog_pos, fmul_finite, !fadd_finite by lra.
  rewrite through_logit_interior by done.
  f_equal. lra.
Qed.

Lemma pareto_log_prob_interior a b x :
  (0 < a < b)%R -> (a < x < b)%R ->
  pareto_log_prob (Finite a) (Finite b) (Finite x) =
  Finite (- ln x - ln (ln (b / a))).
Proof.
  intros [Ha Hab] [Hax Hxb]. unfold pareto_log_prob.
  assert (Hia : (0 < / a)%R) by by apply Rinv_0_lt_compat.
  assert (Hone : (a * / a = 1)%R) by (apply Rinv_r; lra).
  assert (H1x : (1 < x / a)%R) by (unfold Rdiv; nra).
  assert (Hxb' : (x / a < b / a)%R) by (unfold Rdiv; nra).
  assert (HLx : (0 < ln (x / a))%R) by (rewrite <- ln_1; apply ln_increasing; lra).
  assert (HLb : (ln (x / a) < ln (b / a))%R) by (apply ln_increasing; lra).
  rewrite !fdiv_finite by lra.
  rewrite !(flog_pos (b / a)), (flog_pos (x / a)), (flog_pos x) by lra.
  rewrite fdiv_finite, flog_pos, fneg_finite, fsub_finite, fadd_finite by lra.
  rewrite through_logit_interior; [f_equal; lra|].
  assert (Hi : (0 < / ln (b / a))%R) by (apply Rinv_0_lt_compat; lra).
  assert (Hone' : (ln (b / a) * / ln (b / a) = 1)%R) by (apply Rinv_r; lra).
  unfold Rdiv at 1 3. split; nra.
Qed.

(** At the bounds themselves the inverse of the power-law and of the
    Pareto transform reaches an end of the unit interval. *)
Lemma power_law_log_prob_boundary a b alpha x :
  (0 < a < b)%R -> alpha ≠ (-1)%R -> (x = a \/ x = b)%R ->
  power_law_log_prob (Finite a) (Finite b) (Finite alpha) (Finite x) = NaN.
Proof.
  intros [Ha Hab] Halpha Hx. unfold power_law_log_prob. cbv zeta.
  assert (Ha1 : (1 + alpha)%R ≠ 0%R) by lra.
  assert (Hxpos : (0 < x)%R) by (destruct Hx as [-> | ->]; lra).
  rewrite fadd_finite, !fpow_pos, !fsub_finite by lra.
  set (c := (1 + alpha)%R) in *.
  assert (Hw : (Rpower b c - Rpower a c)%R ≠ 0%R).
  { destruct (Rtotal_order 0 c) as [Hc | [Hc | Hc]]; [| by destruct Ha1 |].
    - pose proof (Rpower_lt_base c a b Hc ltac:(lra)). lra.
    - pose proof (Rpower_gt_base c a b Hc ltac:(lra)). lra. }
  rewrite (fdiv_finite (Rpower x c - Rpower a c)) by done.
  apply through_logit_boundary.
  destruct Hx as [-> | ->]; [left | right]; field; done.
Qed.

Lemma pareto_log_prob_boundary a b x :
  (0 < a < b)%R -> (x = a \/ x = b)%R ->
  pareto_log_prob (Finite a) (Finite b) (Finite x) = NaN.
Proof.
  intros [Ha Hab] Hx. unfold pareto_log_prob.
  assert (Hia : (0 < / a)%R) by by apply Rinv_0_lt_compat.
  assert (Hone : (a * / a = 1)%R) by (apply Rinv_r; lra).
  assert (Hba : (1 < b / a)%R) by (unfold Rdiv; nra).
  assert (HL : (0 < ln (b / a))%R) by (rewrite <- ln_1; apply ln_increasing; lra).
  assert (Hxa : (0 < x / a)%R).
  { destruct Hx as [-> | ->]; unfold Rdiv; nra. }
  rewrite !fdiv_finite by lra.
  rewrite (flog_pos (b / a)), (flog_pos (x / a)) by lra.
  rewrite fdiv_finite by lra.
  apply through_logit_boundary.
  destruct Hx as [-> | ->]; [left | right].
  - replace (a / a)%R with 1%R by (field; lra). rewrite ln_1. field. lra.
  - field. lra.
Qed.

Lemma PowerLawPrior_log_prob_unfold xmin xmax alpha name p (z : gmap string Float) v :
  PowerLawPrior xmin xmax alpha [name] = Ok p ->
  z !! name = Some v ->
  log_prob p z =
  Ok (if feqb alpha (Finite (-1))
      then pareto_log_prob xmin xmax v
      else power_law_log_prob xmin xmax alpha v).
Proof.
  intros Hp Hz. unfold PowerLawPrior in Hp. cbn in Hp.
  destruct (flt xmin xmax); cbn in Hp; [|discriminate].
  destruct (flt (Finite 0) xmin); cbn in Hp; [|discriminate].
  injection Hp as <-.
  cbn [log_prob rev app inverse_loop].
  destruct (feqb alpha (Finite (-1)));
    unfold ParetoTransform, PowerLawTransform, LogitTransform; cbv zeta;
    rewrite (inverse_single _ _ _ _ _ z v Hz); cbn [mbind result_bind fst snd];
    rewrite (inverse_single _ _ _ _ _ _ _ (lookup_insert_eq _ _ _));
    cbn [mbind result_bind fst snd];
    unfold index; cbn [lookup list_lookup mbind result_bind];
    unfold getitem; rewrite lookup_insert_eq; reflexivity.
Qed.

Lemma PowerLawPrior_constructs a b alpha name :
  (0 < a < b)%R ->
  exists p, PowerLawPrior (Finite a) (Finite b) alpha [name] = Ok p.
Proof.
  intros [Ha Hab]. unfold PowerLawPrior. cbn.
  rewrite !flt_finite by lra. cbn. eauto.
Qed.

(** C7, as the code has it.  A [PowerLawPrior(a, b, alpha)] with
    [0 < a < b] is constructed, and at a point [x] strictly between the
    bounds its log-density is
    [log((1+alpha)/(b^(1+alpha) - a^(1+alpha))) + alpha*log(x)] when
    [alpha] is not [-1], and the log-uniform [-log(x) - log(log(b/a))] when
    it is; at the bounds themselves, [a] and [b], it is NaN on both
    branches.  For [PowerLawPrior(0.05, 10, -1)] the log-density at [1] is
    [-log(log(200))]. *)
Theorem PowerLawPrior_log_prob_closed_form (a b alpha : R) (name : string) :
  (0 < a < b)%R ->
  (exists p, PowerLawPrior (Finite a) (Finite b) (Finite alpha) [name] = Ok p /\
     (forall (z : gmap string Float) x,
        z !! name = Some (Finite x) -> (a < x < b)%R ->
        (alpha ≠ (-1)%R ->
         log_prob p z =
         Ok (Finite (ln ((1 + alpha) / (Rpower b (1 + alpha) - Rpower a (1 + alpha)))
                     + alpha * ln x))) /\
        (alpha = (-1)%R ->
         log_prob p z = Ok (Finite (- ln x - ln (ln (b / a)))))) /\
     (forall (z : gmap string Float) x,
        z !! name = Some (Finite x) -> (x = a \/ x = b)%R ->
        log_prob p z = Ok NaN)) /\
  (exists p, PowerLawPrior (Finite 0.05) (Finite 10) (Finite (-1)) ["x"] = Ok p /\
     forall z : gmap string Float,
       z !! "x" = Some (Finite 1) -> log_prob p z = Ok (Finite (- ln (ln 200)))).
Proof.
  intros Hab. split.
  - destruct (PowerLawPrior_constructs a b (Finite alpha) name Hab) as [p Hp].
    exists p. split; [exact Hp|]. split; intros z x Hz Hx;
      rewrite (PowerLawPrior_log_prob_unfold _ _ _ _ _ _ _ Hp Hz).
    + split.
      * intros Halpha. rewrite feqb_finite_ne by done.
        by rewrite power_law_log_prob_interior.
      * intros ->. unfold feqb. rewrite rcmp_Eq.
        by rewrite pareto_log_prob_interior.
    + destruct (Req_dec alpha (-1)) as [-> | Halpha].
      * unfold feqb. rewrite rcmp_Eq. by rewrite pareto_log_prob_boundary.
      * rewrite feqb_finite_ne by done. by rewrite power_law_log_prob_boundary.
  - destruct (PowerLawPrior_constructs 0.05 10 (Finite (-1)) "x") as [p Hp]; [lra|].
    exists p. split; [exact Hp|]. intros z Hz.
    rewrite (PowerLawPrior_log_prob_unfold _ _ _ _ _ _ _ Hp Hz).
    unfold feqb. rewrite rcmp_Eq.
    rewrite pareto_log_prob_interior by lra.
    do 2 f_equal. rewrite ln_1.
    replace (10 / 0.05)%R with 200%R by lra. lra.
Qed.


(** ** Two uniform priors on the unit interval, combined *)

Lemma combine_two_log_prob ns p1 p2 (z : gmap string Float) :
  log_prob (MkCombine ns [p1; p2]) z =
  (lp1 ← log_prob p1 z; lp2 ← log_prob p2 z; Ok (fadd (fadd (Finite 0) lp1) lp2)).
Proof. cbn. by destruct (log_prob p1 z), (log_prob p2 z). Qed.

Section UnitSquare.
Context `{FloatFormat}.

Lemma unit_square_log_prob_unfold nx ny (z : gmap string Float) vx vy :
  z !! nx = Some vx -> z !! ny = Some vy ->
  exists px py p,
    UniformPrior (Finite 0) (Finite 1) [nx] = Ok px /\
    UniformPrior (Finite 0) (Finite 1) [ny] = Ok py /\
    CombinePrior [px; py] = Ok p /\
    log_prob p z =
    Ok (fadd (fadd (Finite 0) (uniform_log_prob (Finite 0) (Finite 1) vx))
             (uniform_log_prob (Finite 0) (Finite 1) vy)).
Proof.
  intros Hx Hy.
  destruct (UniformPrior_log_prob_unfold (Finite 0) (Finite 1) nx z vx Hx)
    as (px & Hpx & Hlx).
  destruct (UniformPrior_log_prob_unfold (Finite 0) (Finite 1) ny z vy Hy)
    as (py & Hpy & Hly).
  exists px, py. eexists. split_and!; [done | done | reflexivity |].
  by rewrite combine_two_log_prob, Hlx, Hly.
Qed.

Lemma unit_square_log_prob_cases nx ny (z : gmap string Float) (x y : R) :
  z !! nx = Some (Finite x) -> z !! ny = Some (Finite y) ->
  exists px py p,
    UniformPrior (Finite 0) (Finite 1) [nx] = Ok px /\
    UniformPrior (Finite 0) (Finite 1) [ny] = Ok py /\
    CombinePrior [px; py] = Ok p /\
    (exists v, log_prob p z = Ok v) /\
    ((0 < x < 1)%R -> (0 < y < 1)%R -> log_prob p z = Ok (Finite 0)) /\
    ((x <= 0 \/ 1 <= x \/ y <= 0 \/ 1 <= y)%R -> log_prob p z = Ok NaN).
Proof.
  intros Hx Hy.
  destruct (unit_square_log_prob_unfold nx ny z _ _ Hx Hy)
    as (px & py & p & Hpx & Hpy & Hp & Hl).
  exists px, py, p. split_and!; [done..| by eexists | |]; rewrite Hl.
  - intros Hx01 Hy01. rewrite !uniform_log_prob_interior by lra.
    rewrite !fadd_finite. do 2 f_equal.
    replace (1 - 0)%R with 1%R by lra. rewrite ln_1. lra.
  - intros [Hout | [Hout | [Hout | Hout]]].
    + by rewrite (uniform_log_prob_not_inside 0 1 x), fadd_NaN_r, fadd_NaN_l by lra.
    + by rewrite (uniform_log_prob_not_inside 0 1 x), fadd_NaN_r, fadd_NaN_l by lra.
    + by rewrite (uniform_log_prob_not_inside 0 1 y), fadd_NaN_r by lra.
    + by rewrite (uniform_log_prob_not_inside 0 1 y), fadd_NaN_r by lra.
Qed.

End UnitSquare.

Lemma UniformPrior_witness :
  exists p,
    @UniformPrior constant_format (Finite (-10)) (Finite 10) ["x"] = Ok p /\
    log_prob p (<["x" := Finite 0]> ∅) = Ok (Finite (- ln (10 - -10))) /\
    exists arr, @sample constant_random p 0%Z 3 = Ok {[ "x" := arr ]} /\ length arr = 3.
Proof.
  destruct (@UniformPrior_sample_range_and_log_prob constant_format constant_random
              (-10) 10 "x") as [(p & Hp & Hs & Hl & _) _]; [lra|].
  exists p. split; [exact Hp|]. split.
  - apply (Hl _ 0%R); [apply lookup_insert_eq | lra].
  - destruct (Hs 0%Z 3) as (arr & Harr & Hlen & _). by exists arr.
Defined.

(** C6, refuted as stated: [-10] is a value that [UniformPrior(-10, 10)]
    samples, when the draw of the unit uniform sampler is [0], and there, as
    at [10], the log-density is NaN and not [-log(20)]. *)
Lemma UniformPrior_bounds_are_nan :
  exists p,
    @UniformPrior constant_format (Finite (-10)) (Finite 10) ["x"] = Ok p /\
    @sample constant_random p 0%Z 1 = Ok {[ "x" := [Finite (-10)] ]} /\
    log_prob p (<["x" := Finite (-10)]> ∅) = Ok NaN /\
    log_prob p (<["x" := Finite 10]> ∅) = Ok NaN /\
    log_prob p (<["x" := Finite (-10)]> ∅) ≠ Ok (Finite (- ln (10 - -10))) /\
    log_prob p (<["x" := Finite 10]> ∅) ≠ Ok (Finite (- ln (10 - -10))).
Proof.
  destruct (@UniformPrior_sample_unfold constant_format constant_random
              (Finite (-10)) (Finite 10) "x" 0%Z 1) as (p & Hp & Hs).
  assert (Hlo : log_prob p (<["x" := Finite (-10)]> ∅) = Ok NaN).
  { destruct (@UniformPrior_log_prob_unfold constant_format (Finite (-10)) (Finite 10)
                "x" (<["x" := Finite (-10)]> ∅) _ (lookup_insert_eq _ _ _))
      as (p' & Hp' & Hl).
    rewrite Hp in Hp'. injection Hp' as <-. rewrite Hl.
    rewrite uniform_log_prob_boundary; [reflexivity | lra | by left]. }
  assert (Hhi : log_prob p (<["x" := Finite 10]> ∅) = Ok NaN).
  { destruct (@UniformPrior_log_prob_unfold constant_format (Finite (-10)) (Finite 10)
                "x" (<["x" := Finite 10]> ∅) _ (lookup_insert_eq _ _ _))
      as (p' & Hp' & Hl).
    rewrite Hp in Hp'. injection Hp' as <-. rewrite Hl.
    rewrite uniform_log_prob_boundary; [reflexivity | lra | by right]. }
  exists p. split_and!; [exact Hp | | exact Hlo | exact Hhi | by rewrite Hlo | by rewrite Hhi].
  rewrite Hs. cbn [uniform constant_random constant_uniform replicate map].
  rewrite logit_zero. unfold uniform_forward.
  replace (sigmoid NInf) with (Finite 0) by reflexivity.
  rewrite fsub_finite, fmul_finite, fadd_finite.
  by replace (0 * (10 - -10) + -10)%R with (-10)%R by lra.
Qed.

Lemma PowerLawPrior_witness :
  exists p,
    PowerLawPrior (Finite 1) (Finite 2000) (Finite 2) ["d_L"] = Ok p /\
    log_prob p (<["d_L" := Finite 400]> ∅) =
    Ok (Finite (ln ((1 + 2) / (Rpower 2000 (1 + 2) - Rpower 1 (1 + 2))) + 2 * ln 400)).
Proof.
  destruct (PowerLawPrior_log_prob_closed_form 1 2000 2 "d_L")
    as [(p & Hp & Hl & _) _]; [lra|].
  exists p. split; [exact Hp|].
  destruct (Hl (<["d_L" := Finite 400]> ∅) 400%R) as [Hne _];
    [apply lookup_insert_eq | lra |].
  apply Hne. lra.
Defined.

(** * Further properties *)

Set Warnings "-clear-no-such-hyp".

(** ** Naming an array: [Prior.add_name] *)

Lemma update_dom {V} (pairs : list (string * V)) : forall d : gmap string V,
  dom (update pairs d) = list_to_set pairs.*1 ∪ dom d.
Proof.
  induction pairs as [|[k v] pairs IH]; intros d.
  - cbn. set_solver.
  - change (update ((k, v) :: pairs) d) with (update pairs (<[k := v]> d)).
    rewrite IH, dom_insert_L. cbn. set_solver.
Qed.

Lemma update_lookup_notin {V} (pairs : list (string * V)) k : forall d : gmap string V,
  k ∉ pairs.*1 -> update pairs d !! k = d !! k.
Proof.
  induction pairs as [|[k' v] pairs IH]; intros d Hk; [reflexivity|].
  change (update ((k', v) :: pairs) d) with (update pairs (<[k' := v]> d)).
  cbn in Hk. apply not_elem_of_cons in Hk as [Hne Hk].
  by rewrite IH, lookup_insert_ne.
Qed.

Lemma zip_fst_take {A B} (l : list A) (k : list B) :
  (zip l k).*1 = take (length k) l.
Proof.
  revert k. induction l as [|a l IH]; intros [|b k]; cbn; [done..|].
  by rewrite IH.
Qed.

(** [add_name] pairs the names with the rows in order and stops at the
    shorter of the two: the keys of the result are the names that got a row.
    When the names are distinct, the [i]-th name maps to the [i]-th row. *)
Theorem add_name_lookup {V} (names : list string) (x : list V) :
  dom (add_name names x) = list_to_set (take (length x) names) /\
  (NoDup names ->
   forall i k v, names !! i = Some k -> x !! i = Some v ->
     add_name names x !! k = Some v).
Proof.
  unfold add_name. split.
  - rewrite update_dom, zip_fst_take. set_solver.
  - generalize (∅ : gmap string V) as d. revert x.
    induction names as [|k0 names IH]; intros x d Hnd i k v Hi Hx; [done|].
    destruct x as [|v0 x]; [done|].
    apply NoDup_cons in Hnd as [Hk0 Hnd].
    change (update (zip (k0 :: names) (v0 :: x)) d)
      with (update (zip names x) (<[k0 := v0]> d)).
    destruct i as [|i]; simplify_eq/=.
    + rewrite update_lookup_notin; [apply lookup_insert_eq|].
      rewrite zip_fst_take. intros Hin%elem_of_take. destruct Hin as (j & Hj & _).
      apply Hk0. by eapply list_elem_of_lookup_2.
    + by eapply IH.
Qed.

Lemma add_name_lookup_witness :
  add_name ["a"; "b"; "c"] [1; 2] !! "b" = Some 2 /\
  dom (add_name ["a"; "b"; "c"] [1; 2]) = list_to_set (take 2 ["a"; "b"; "c"]).
Proof.
  destruct (add_name_lookup ["a"; "b"; "c"] [1; 2]) as [Hdom Hlook].
  split; [|exact Hdom].
  apply (Hlook ltac:(repeat constructor; set_solver) 1); reflexivity.
Defined.

(** ** Combine composite: density and sampling *)

(** The log-density of a Combine evaluates every child on the same, whole
    dictionary, in order: it returns when every child returns, the sum of
    their values accumulated from [0.0] left to right, and otherwise raises
    what the first failing child raises. *)
Theorem CombinePrior_log_prob_sum ns priors (z : gmap string Float) :
  log_prob (MkCombine ns priors) z =
  (lps ← mapM (fun prior => log_prob prior z) priors; Ok (fsum lps)).
Proof.
  cbn [log_prob]. unfold fsum. generalize (Finite 0) as output.
  induction priors as [|q priors IH]; intros output; [reflexivity|].
  cbn [mapM]. destruct (log_prob q z) as [lp|e]; [|reflexivity].
  cbn. rewrite IH.
  by destruct (mapM (fun prior => log_prob prior z) priors).
Qed.

Section CombineSampling.
Context `{JaxRandom}.

Lemma combine_sample_loop priors n : forall (key : PRNGKeyArray) output,
  (fix loop (priors : list Prior) (rng_key : PRNGKeyArray)
       (output : gmap string (list Float)) : result (gmap string (list Float)) :=
     match priors with
     | [] => Ok output
     | prior :: priors' =>
         let ks := split rng_key in
         s ← sample prior ks.2 n;
         loop priors' ks.1 (s ∪ output)
     end) priors key output =
  (ds ← mapM (fun pk => sample pk.1 pk.2 n) (zip priors (subkeys key (length priors)));
   Ok (foldl (fun out d => d ∪ out) output ds)).
Proof.
  induction priors as [|q priors IH]; intros key output; [reflexivity|].
  cbn [length subkeys zip zip_with mapM fst snd].
  destruct (sample q (split key).2 n) as [s|e]; [|reflexivity].
  cbn. rewrite IH.
  by destruct (mapM _ (zip priors (subkeys (split key).1 (length priors)))).
Qed.

(** A sample of a Combine draws the [i]-th child with the [i]-th subkey of
    the running split, and merges the children's dictionaries in order,
    a later child overwriting an earlier one on a shared name; it raises
    what the first failing child raises. *)
Theorem CombinePrior_sample_merge ns priors (key : PRNGKeyArray) n :
  sample (MkCombine ns priors) key n =
  (ds ← mapM (fun pk => sample pk.1 pk.2 n) (zip priors (subkeys key (length priors)));
   Ok (foldl (fun out d => d ∪ out) ∅ ds)).
Proof. cbn [sample]. apply combine_sample_loop. Qed.

Lemma combine_loop_contract priors n :
  Forall sample_contract priors ->
  forall (key : PRNGKeyArray) output,
    map_Forall (fun _ arr => length arr = n) output ->
    exists d,
      (ds ← mapM (fun pk => sample pk.1 pk.2 n)
                 (zip priors (subkeys key (length priors)));
       Ok (foldl (fun out d => d ∪ out) output ds)) = Ok d /\
      dom d = list_to_set (concat (map parameter_names priors)) ∪ dom output /\
      map_Forall (fun _ arr => length arr = n) d.
Proof.
  induction 1 as [|q priors Hq _ IH]; intros key output Hout.
  - exists output. cbn. split; [done|]. split; [set_solver | done].
  - cbn [length subkeys zip zip_with mapM fst snd].
    destruct (Hq (split key).2 n) as (s & -> & Hdom & Hlen). cbn.
    destruct (IH (split key).1 (s ∪ output)) as (d & Hd & Hdomd & Hlend).
    { by apply map_Forall_union_2. }
    destruct (mapM _ (zip priors (subkeys (split key).1 (length priors))))
      as [ds|e]; [|discriminate].
    cbn in *. exists d. split; [done|]. split; [|done].
    rewrite Hdomd, dom_union_L, Hdom, list_to_set_app_L. set_solver.
Qed.

Lemma combine_keeps_contract priors p :
  CombinePrior priors = Ok p ->
  Forall sample_contract priors ->
  sample_contract p.
Proof.
  intros [= <-] Hps key n.
  cbn [sample]. rewrite combine_sample_loop.
  destruct (combine_loop_contract priors n Hps key ∅) as (d & Hd & Hdom & Hlen).
  { apply map_Forall_empty. }
  exists d. split; [done|]. split; [|done].
  cbn [parameter_names]. rewrite foldl_names_concat, Hdom. cbn. set_solver.
Qed.

(** Combining keeps the sampling contract: when every child returns exactly
    its parameter names with arrays of the requested length, so does the
    Combine, for the concatenated names. *)
Theorem CombinePrior_sample_contract priors p :
  CombinePrior priors = Ok p ->
  Forall sample_contract priors ->
  sample_contract p.
Proof. apply combine_keeps_contract. Qed.

End CombineSampling.

(** ** The leaves *)

Lemma add_name_single {V} name (row : V) : add_name [name] [row] = {[ name := row ]}.
Proof. unfold add_name, update. cbn. by rewrite insert_empty. Qed.

Lemma singleton_contract name (arr : list Float) n :
  length arr = n ->
  dom ({[ name := arr ]} : gmap string (list Float)) = list_to_set [name] /\
  map_Forall (fun _ a => length a = n) ({[ name := arr ]} : gmap string (list Float)).
Proof.
  intros Hlen. split.
  - rewrite dom_singleton_L. cbn. set_solver.
  - by apply map_Forall_singleton.
Qed.

Lemma logit_unit_draw u :
  (0 <= u < 1)%R ->
  (u = 0%R /\ logit (Finite u) = NInf) \/
  ((0 < u)%R /\ logit (Finite u) = Finite (ln (u / (1 - u)))).
Proof.
  intros [[H0 | <-] H1]; [right | left]; (split; [lra || done|]).
  - apply logit_interior. lra.
  - apply logit_zero.
Qed.

Section LeafSampling.
Context `{JaxRandom}.

(** A constructed logistic leaf samples one array of the requested length
    under its name: the logit of each unit-uniform draw.  A value is minus
    infinity when its draw is exactly zero and finite otherwise; none is NaN
    or plus infinity. *)
Theorem Logistic_sample_values names p (key : PRNGKeyArray) n :
  LogisticDistribution names = Ok p ->
  exists name arr,
    names = [name] /\ sample p key n = Ok {[ name := arr ]} /\ length arr = n /\
    Forall2 (fun u v =>
               exists r, u = Finite r /\
                 ((r = 0%R /\ v = NInf) \/
                  ((0 < r < 1)%R /\ v = Finite (ln (r / (1 - r))))))
            (uniform key n 0 1) arr.
Proof.
  intros Hp. destruct names as [|name [|]]; try discriminate Hp.
  injection Hp as <-. eexists name, _. split; [done|].
  cbn [sample]. rewrite add_name_single. split; [reflexivity|].
  split; [by rewrite length_map, uniform_shape|].
  apply Forall2_fmap_r, Forall_Forall2_diag, Forall_forall. intros v Hv.
  apply uniform_range in Hv as (r & -> & Hr); [|lra].
  exists r. split; [done|].
  destruct (logit_unit_draw r Hr) as [[-> Hl] | [H0 Hl]]; [left | right].
  - by split.
  - split; [lra | exact Hl].
Qed.

Lemma Logistic_contract name : sample_contract (MkLogistic [name]).
Proof.
  intros key n. eexists. cbn [sample]. rewrite add_name_single.
  split; [reflexivity|]. apply singleton_contract.
  by rewrite length_map, uniform_shape.
Qed.

Lemma StandardNormal_contract name : sample_contract (MkStandardNormal [name]).
Proof.
  intros key n. eexists. cbn [sample]. rewrite add_name_single.
  split; [reflexivity|]. apply singleton_contract, normal_shape.
Qed.

End LeafSampling.

Lemma Logistic_sample_values_witness :
  exists arr,
    @sample constant_random (MkLogistic ["x"]) 7%Z 2 = Ok {[ "x" := arr ]} /\
    length arr = 2.
Proof.
  destruct (@Logistic_sample_values constant_random ["x"] (MkLogistic ["x"]) 7%Z 2
              eq_refl) as (name & arr & Hname & Hs & Hlen & _).
  injection Hname as <-. by exists arr.
Defined.

Lemma CombinePrior_sample_contract_witness :
  @sample_contract constant_random
    (MkCombine ["x"; "y"] [MkLogistic ["x"]; MkStandardNormal ["y"]]).
Proof.
  apply (@CombinePrior_sample_contract constant_random
           [MkLogistic ["x"]; MkStandardNormal ["y"]]); [reflexivity|].
  repeat constructor.
  - apply Logistic_contract.
  - apply StandardNormal_contract.
Defined.

(** ** Densities of the leaves *)

Lemma logistic_log_density_symmetric x :
  (- - x - 2 * ln (1 + exp (- - x)) = - x - 2 * ln (1 + exp (- x)))%R.
Proof.
  rewrite Ropp_involutive.
  pose proof (exp_pos x) as Hx. pose proof (exp_pos (- x)) as Hnx.
  assert (Hprod : (exp x * exp (- x) = 1)%R).
  { rewrite <- exp_plus. replace (x + - x)%R with 0%R by lra. apply exp_0. }
  replace (1 + exp x)%R with (exp x * (1 + exp (- x)))%R by nra.
  rewrite ln_mult, ln_exp by lra. lra.
Qed.

Lemma logistic_log_density_max x :
  (- x - 2 * ln (1 + exp (- x)) <= - (2 * ln 2))%R.
Proof.
  pose proof (exp_pos x) as Hx. pose proof (exp_pos (- x)) as Hnx.
  assert (Hprod : (exp x * exp (- x) = 1)%R).
  { rewrite <- exp_plus. replace (x + - x)%R with 0%R by lra. apply exp_0. }
  assert (Hle : (ln (2 * 2) <= ln (exp x * ((1 + exp (- x)) * (1 + exp (- x)))))%R).
  { set (a := exp x) in *. set (b := exp (- x)) in *.
    assert (Hexpand : (a * ((1 + b) * (1 + b)) = a + 2 * (a * b) + (a * b) * b)%R)
      by ring.
    assert (Hsq : (0 <= (a - 1) * (a - 1))%R) by apply Rle_0_sqr.
    assert (Hsqb : (0 <= (a - 1) * (a - 1) * b)%R) by (apply Rmult_le_pos; lra).
    assert (Hsqb' : ((a - 1) * (a - 1) * b = a * (a * b) - 2 * (a * b) + b)%R) by ring.
    rewrite Hprod in Hexpand, Hsqb'.
    destruct (Req_dec (2 * 2) (a * ((1 + b) * (1 + b)))) as [<- | Hne]; [lra|].
    left. apply ln_increasing; lra. }
  rewrite (ln_mult 2 2), (ln_mult (exp x)), ln_mult, ln_exp in Hle; try lra.
  apply Rmult_lt_0_compat; lra.
Qed.

(** The log-density of a constructed logistic leaf.  On a dictionary without
    its name it raises [KeyError] for that name.  At a finite value [x] it is
    the finite number [-x - 2 log(1 + exp(-x))], the same at [-x], and never
    above [-2 log 2], its value at zero.  At plus infinity it is minus
    infinity, but at minus infinity the formula meets [inf - inf] and gives
    NaN. *)
Theorem Logistic_log_prob_values names p (z : gmap string Float) :
  LogisticDistribution names = Ok p ->
  exists name, names = [name] /\
    (z !! name = None -> log_prob p z = Raise (KeyError name)) /\
    (forall x, z !! name = Some (Finite x) ->
       log_prob p z = Ok (Finite (- x - 2 * ln (1 + exp (- x)))) /\
       log_prob p (<[name := Finite (- x)]> z) = log_prob p z /\
       (- x - 2 * ln (1 + exp (- x)) <= - (2 * ln 2))%R) /\
    (z !! name = Some PInf -> log_prob p z = Ok NInf) /\
    (z !! name = Some NInf -> log_prob p z = Ok NaN) /\
    (z !! name = Some NaN -> log_prob p z = Ok NaN).
Proof.
  intros Hp. destruct names as [|name [|]]; try discriminate Hp.
  injection Hp as <-. exists name. split; [done|].
  split_and!.
  - intros Hz. cbn. unfold getitem. by rewrite Hz.
  - intros x Hz. split_and!.
    + rewrite (logistic_log_prob name z _ Hz). by rewrite logistic_log_density_finite.
    + rewrite (logistic_log_prob name z _ Hz).
      rewrite (logistic_log_prob name _ _ (lookup_insert_eq _ _ _)).
      rewrite !logistic_log_density_finite. do 2 f_equal.
      apply logistic_log_density_symmetric.
    + apply logistic_log_density_max.
  - intros Hz. rewrite (logistic_log_prob name z _ Hz).
    unfold logistic_log_density.
    replace (fneg PInf) with NInf by reflexivity.
    replace (fexp NInf) with (Finite 0) by reflexivity.
    rewrite fadd_finite, flog_pos by lra. reflexivity.
  - intros Hz. rewrite (logistic_log_prob name z _ Hz).
    unfold logistic_log_density.
    replace (fneg NInf) with PInf by reflexivity.
    replace (flog (fadd (Finite 1) (fexp PInf))) with PInf by reflexivity.
    unfold fmul, inf_signed. by rewrite rcmp_Gt by lra.
  - intros Hz. by rewrite (logistic_log_prob name z _ Hz).
Qed.

Lemma Logistic_log_prob_values_witness :
  log_prob (MkLogistic ["x"]) (<["x" := Finite 3]> ∅)
  = Ok (Finite (- 3 - 2 * ln (1 + exp (- 3)))).
Proof.
  destruct (Logistic_log_prob_values ["x"] (MkLogistic ["x"])
              (<["x" := Finite 3]> ∅) eq_refl)
    as (name & Hname & _ & Hfin & _).
  injection Hname as <-.
  apply (Hfin 3%R). apply lookup_insert_eq.
Defined.

Lemma Int_part_2 : Int_part 2 = 2%Z.
Proof. symmetry. apply Int_part_spec. cbn. lra. Qed.

Lemma fpow_square x : fpow (Finite x) (Finite 2) = Finite (x * x).
Proof.
  unfold fpow. rewrite (rcmp_Gt 2 0) by lra.
  unfold rcmp at 1. destruct (total_order_T x 0) as [[Hlt | ->] | Hgt].
  - unfold is_int. rewrite Int_part_2.
    destruct (Req_dec_T 2 2) as [_|Hne]; [|done].
    f_equal. change (powerRZ x 2) with (powerRZ x (Z.of_nat 2)).
    rewrite <- pow_powerRZ. cbn [pow]. lra.
  - f_equal. lra.
  - f_equal. replace 2%R with (INR 2) by (cbn; lra).
    rewrite Rpower_pow by lra. cbn. lra.
Qed.

(** The log-density of a constructed standard normal leaf.  On a dictionary
    without its name it raises [KeyError] for that name.  At a finite value
    [x] it is the finite number [-x^2/2 - log(2 pi)/2], never above its value
    at zero; at either infinity it is minus infinity. *)
Theorem StandardNormal_log_prob_values names p (z : gmap string Float) :
  StandardNormalDistribution names = Ok p ->
  exists name, names = [name] /\
    (z !! name = None -> log_prob p z = Raise (KeyError name)) /\
    (forall x, z !! name = Some (Finite x) ->
       log_prob p z = Ok (Finite (-0.5 * (x * x) - 0.5 * ln (2 * PI))) /\
       (-0.5 * (x * x) - 0.5 * ln (2 * PI) <= -0.5 * (0 * 0) - 0.5 * ln (2 * PI))%R) /\
    (z !! name = Some PInf \/ z !! name = Some NInf -> log_prob p z = Ok NInf).
Proof.
  intros Hp. destruct names as [|name [|]]; try discriminate Hp.
  injection Hp as <-. exists name. split; [done|].
  assert (Hpi : (0 < 2 * PI)%R) by (pose proof PI_RGT_0; lra).
  split_and!.
  - intros Hz. cbn. unfold getitem. by rewrite Hz.
  - intros x Hz. split; [|nra].
    cbn. unfold getitem. rewrite Hz. cbn.
    by rewrite fpow_square, !fmul_finite, flog_pos, fmul_finite, fsub_finite.
  - assert (Hodd : is_odd_int 2 = false).
    { unfold is_odd_int. rewrite Int_part_2. apply andb_false_r. }
    assert (Hsq : forall v, v = PInf \/ v = NInf -> fpow v (Finite 2) = PInf).
    { intros v [-> | ->]; unfold fpow; rewrite (rcmp_Gt 2 0) by lra;
        [done | by rewrite Hodd]. }
    intros Hz.
    assert (exists v, z !! name = Some v /\ (v = PInf \/ v = NInf)) as (v & Hv & Hinf)
      by (destruct Hz; eauto).
    cbn. unfold getitem. rewrite Hv. cbn.
    rewrite (Hsq v Hinf), !fmul_finite, flog_pos, fmul_finite by done.
    unfold fmul, inf_signed. by rewrite rcmp_Lt by lra.
Qed.

Lemma StandardNormal_log_prob_values_witness :
  log_prob (MkStandardNormal ["x"]) (<["x" := Finite (-3)]> ∅)
  = Ok (Finite (-0.5 * (-3 * -3) - 0.5 * ln (2 * PI))).
Proof.
  destruct (StandardNormal_log_prob_values ["x"] (MkStandardNormal ["x"])
              (<["x" := Finite (-3)]> ∅) eq_refl)
    as (name & Hname & _ & Hfin & _).
  injection Hname as <-.
  apply (Hfin (-3)%R). apply lookup_insert_eq.
Defined.

(** ** Tracing any tree *)

Lemma leaves_not_composite p : Forall (fun q => composite q = false) (leaves p).
Proof.
  induction p as [ns|ns|ns|ns|ns base ts IH|ns priors IH] using Prior_tree_ind;
    [by repeat constructor.. | exact IH |].
  cbn [leaves]. induction IH as [|q priors Hq _ IHps]; [constructor|].
  apply Forall_app. by split.
Qed.

(** Tracing a tree into a list the store holds returns that same list
    object, extended at its end by the leaves of the tree, depth first and
    left to right, after whatever it held before; every prior appended is a
    non-composite one, and every other list of the store is left as it was. *)
Theorem trace_prior_parent_extends p output (h : gmap nat (list Prior)) acc :
  h !! output = Some acc ->
  (trace_prior_parent p output h).1 = output /\
  (trace_prior_parent p output h).2 !! output = Some (acc ++ leaves p) /\
  (forall l, l ≠ output -> (trace_prior_parent p output h).2 !! l = h !! l) /\
  Forall (fun q => composite q = false) (leaves p).
Proof.
  intros Hacc. rewrite (trace_prior_parent_appends p output h acc Hacc).
  cbn [fst snd]. split_and!; [done | apply lookup_insert_eq | | apply leaves_not_composite].
  intros l Hl. by rewrite lookup_insert_ne.
Qed.

Lemma trace_prior_parent_extends_witness :
  (trace_prior_parent
     (MkCombine ["x"; "y"] [MkLogistic ["x"]; MkSequential ["y"] (MkStandardNormal ["y"]) []])
     5 {[ 5 := [MkPrior []] ]}).2 !! 5
  = Some [MkPrior []; MkLogistic ["x"]; MkStandardNormal ["y"]].
Proof.
  destruct (trace_prior_parent_extends
              (MkCombine ["x"; "y"]
                 [MkLogistic ["x"]; MkSequential ["y"] (MkStandardNormal ["y"]) []])
              5 {[ 5 := [MkPrior []] ]} [MkPrior []]) as (_ & Hlist & _).
  - apply lookup_singleton_eq.
  - exact Hlist.
Defined.

(** ** Sequential composite over a chain of one-name transforms *)

Lemma propagate_single a b f finv flj :
  propagate_name (coordinatewise ([a], [b]) f finv flj) [a] = [b].
Proof.
  unfold propagate_name. cbn [name_mapping coordinatewise fst snd].
  rewrite filter_cons_False; [done|]. intros Hn. apply Hn. by left.
Qed.

Lemma linked_names a ts b :
  linked a ts b -> foldl (fun names t => propagate_name t names) [a] ts = [b].
Proof.
  induction 1 as [a | a b c f finv flj ts _ IH]; [reflexivity|].
  cbn [foldl]. by rewrite propagate_single.
Qed.

Lemma linked_transform_batch a ts b :
  linked a ts b ->
  forall (arr : list Float),
  exists arr', transform_batch (length arr) ts {[ a := arr ]} = Ok {[ b := arr' ]} /\
               length arr' = length arr.
Proof.
  induction 1 as [a | a b c f finv flj ts _ IH]; intros arr.
  - by exists arr.
  - cbn [transform_batch].
    rewrite (forward_batch_single _ _ _ _ _ _ _ arr (lookup_singleton_eq _ _) eq_refl).
    cbn [mbind result_bind]. rewrite delete_singleton_eq, insert_empty.
    destruct (IH (map f arr)) as (arr' & Harr' & Hlen).
    rewrite length_map in Harr', Hlen. by exists arr'.
Qed.

Section SequentialSampling.
Context `{JaxRandom}.

Lemma sequential_keeps_contract base ts p a b :
  SequentialTransformPrior base (Some ts) = Ok p ->
  parameter_names base = [a] ->
  linked a ts b ->
  sample_contract base ->
  parameter_names p = [b] /\ sample_contract p.
Proof.
  intros [= <-] Hnames Hlinked Hbase.
  cbn [parameter_names]. rewrite Hnames, (linked_names a ts b Hlinked).
  split; [reflexivity|]. intros key n.
  destruct (Hbase key n) as (d & Hd & Hdom & Hlen).
  rewrite Hnames in Hdom.
  assert (Hdom' : dom d = {[ a ]}) by (rewrite Hdom; cbn; set_solver).
  apply dom_singleton_inv_L in Hdom' as [arr ->].
  assert (Harr : length arr = n)
    by (apply (Hlen a arr), lookup_singleton_eq).
  destruct (linked_transform_batch a ts b Hlinked arr) as (arr' & Harr' & Hlen').
  exists {[ b := arr' ]}. split.
  - cbn [sample]. rewrite Hd. cbn [mbind result_bind].
    unfold vmap_transform. rewrite <- insert_empty, batch_size_singleton.
    cbn [mbind result_bind]. by rewrite insert_empty.
  - cbn [parameter_names]. apply singleton_contract. congruence.
Qed.

(** A Sequential built over a base that keeps the sampling contract for its
    single name [a], with a chain of one-name transforms leading from [a] to
    [b], has [b] as its only parameter name and keeps the contract itself. *)
Theorem SequentialTransformPrior_sample_contract base ts p a b :
  SequentialTransformPrior base (Some ts) = Ok p ->
  parameter_names base = [a] ->
  linked a ts b ->
  sample_contract base ->
  parameter_names p = [b] /\ sample_contract p.
Proof. apply sequential_keeps_contract. Qed.

End SequentialSampling.

(** ** The derived priors: names, leaves and sampling *)

Section DerivedContract.
Context `{FloatFormat} `{JaxRandom}.

Lemma UniformPrior_keeps_contract xmin xmax name :
  exists p, UniformPrior xmin xmax [name] = Ok p /\
    parameter_names p = [name] /\ sample_contract p /\
    leaves p = [MkLogistic [name +:+ "_base"]].
Proof.
  eexists. split; [reflexivity|].
  apply and_assoc. split; [|reflexivity].
  eapply sequential_keeps_contract; [reflexivity | reflexivity | | apply Logistic_contract].
  unfold LogitTransform, ScaleTransform, OffsetTransform.
  repeat econstructor.
Qed.

Lemma CosinePrior_keeps_contract name :
  exists p, CosinePrior [name] = Ok p /\
    parameter_names p = [name] /\ sample_contract p /\
    leaves p = [MkLogistic [("sin(" +:+ name +:+ ")") +:+ "_base"]].
Proof.
  destruct (UniformPrior_keeps_contract (Finite (-1)) (Finite 1) ("sin(" +:+ name +:+ ")"))
    as (u & Hu & Hnames & Hcontract & Hleaves).
  unfold CosinePrior. cbn [length Nat.eqb assert mbind result_bind index lookup list_lookup].
  rewrite Hu. cbn [mbind result_bind].
  eexists. split; [reflexivity|].
  apply and_assoc. split; [|exact Hleaves].
  eapply sequential_keeps_contract; [reflexivity | exact Hnames | | exact Hcontract].
  unfold ArcSineTransform. repeat econstructor.
Qed.

Lemma SinePrior_keeps_contract name :
  exists p, SinePrior [name] = Ok p /\
    parameter_names p = [name] /\ sample_contract p /\
    leaves p = [MkLogistic [("sin(" +:+ (name +:+ "-pi/2") +:+ ")") +:+ "_base"]].
Proof.
  destruct (CosinePrior_keeps_contract (name +:+ "-pi/2"))
    as (c & Hc & Hnames & Hcontract & Hleaves).
  unfold SinePrior. cbn [length Nat.eqb assert mbind result_bind index lookup list_lookup].
  rewrite Hc. cbn [mbind result_bind].
  eexists. split; [reflexivity|].
  apply and_assoc. split; [|exact Hleaves].
  eapply sequential_keeps_contract; [reflexivity | exact Hnames | | exact Hcontract].
  unfold OffsetTransform. repeat econstructor.
Qed.

(** A [UniformPrior] is constructed for one name and any two bounds, in any
    order, equal, infinite or NaN: the constructor compares nothing.  Its
    only parameter name is the given one, its only leaf is the logistic
    distribution named [<name>_base], and it keeps the sampling contract.
    With another number of names it raises [AssertionError]. *)
Theorem UniformPrior_construction xmin xmax :
  (forall name, exists p,
     UniformPrior xmin xmax [name] = Ok p /\
     parameter_names p = [name] /\ sample_contract p /\
     leaves p = [MkLogistic [name +:+ "_base"]]) /\
  (forall names, length names ≠ 1 ->
     UniformPrior xmin xmax names =
     Raise (AssertionError "UniformPrior needs to be 1D distributions")).
Proof.
  split; [intros name; apply UniformPrior_keeps_contract|].
  intros [|a [|b names]] Hlen; [reflexivity | done | reflexivity].
Qed.

(** [CosinePrior] and [SinePrior] are constructed for one name, which is
    their only parameter name; each has one logistic leaf, named after the
    sine of the angle, and keeps the sampling contract. *)
Theorem angular_priors_construction name :
  (exists p, CosinePrior [name] = Ok p /\
     parameter_names p = [name] /\ sample_contract p /\
     leaves p = [MkLogistic [("sin(" +:+ name +:+ ")") +:+ "_base"]]) /\
  (exists p, SinePrior [name] = Ok p /\
     parameter_names p = [name] /\ sample_contract p /\
     leaves p = [MkLogistic [("sin(" +:+ (name +:+ "-pi/2") +:+ ")") +:+ "_base"]]).
Proof.
  split; [apply CosinePrior_keeps_contract | apply SinePrior_keeps_contract].
Qed.

(** [UniformSpherePrior] takes the one name of a vector and is a Combine
    over three names, [<name>_mag], [<name>_theta] and [<name>_phi], in that
    order; tracing it finds three logistic leaves, one under each component
    in the same order; and it keeps the sampling contract.  With another
    number of names it raises [AssertionError]. *)
Theorem UniformSpherePrior_construction :
  (forall name, exists p,
     UniformSpherePrior [name] = Ok p /\
     parameter_names p = [name +:+ "_mag"; name +:+ "_theta"; name +:+ "_phi"] /\
     n_dim p = 3 /\
     sample_contract p /\
     leaves p =
       [ MkLogistic [(name +:+ "_mag") +:+ "_base"];
         MkLogistic [("sin(" +:+ ((name +:+ "_theta") +:+ "-pi/2") +:+ ")") +:+ "_base"];
         MkLogistic [(name +:+ "_phi") +:+ "_base"] ]) /\
  (forall names, length names ≠ 1 ->
     UniformSpherePrior names =
     Raise (AssertionError "UniformSpherePrior only takes the name of the vector")).
Proof.
  split.
  - intros name.
    destruct (UniformPrior_keeps_contract (Finite 0) (Finite 1) (name +:+ "_mag"))
      as (mag & Hmag & Hn1 & Hc1 & Hl1).
    destruct (SinePrior_keeps_contract (name +:+ "_theta"))
      as (theta & Htheta & Hn2 & Hc2 & Hl2).
    destruct (UniformPrior_keeps_contract (Finite 0) (fmul (Finite 2) (Finite PI))
                (name +:+ "_phi")) as (phi & Hphi & Hn3 & Hc3 & Hl3).
    unfold UniformSpherePrior.
    cbn [length Nat.eqb assert mbind result_bind index lookup list_lookup].
    rewrite Hmag. cbn [mbind result_bind]. rewrite Htheta. cbn [mbind result_bind].
    rewrite Hphi. cbn [mbind result_bind].
    eexists. split; [reflexivity|].
    assert (Hnames : parameter_names (MkCombine
              (foldl (fun names prior => names ++ parameter_names prior) []
                     [mag; theta; phi]) [mag; theta; phi])
            = [name +:+ "_mag"; name +:+ "_theta"; name +:+ "_phi"]).
    { cbn [parameter_names foldl]. by rewrite Hn1, Hn2, Hn3. }
    split; [exact Hnames|]. split; [unfold n_dim; by rewrite Hnames|]. split.
    + apply (combine_keeps_contract [mag; theta; phi]); [reflexivity|].
      by repeat constructor.
    + cbn [leaves]. by rewrite Hl1, Hl2, Hl3.
  - intros [|a [|b names]] Hlen; [reflexivity | done | reflexivity].
Qed.

End DerivedContract.

(** ** The power-law prior: construction, samples and the tests' reference *)

Lemma flt_finite_false a b : (b <= a)%R -> flt (Finite a) (Finite b) = false.
Proof.
  intros. unfold flt, rcmp. destruct (total_order_T a b) as [[?|?]|?]; [lra|done..].
Qed.

Lemma unit_draw_sigmoid u :
  (0 <= u < 1)%R ->
  exists s, sigmoid (logit (Finite u)) = Finite s /\ (0 <= s < 1)%R.
Proof.
  intros Hu. destruct (logit_unit_draw u Hu) as [[_ ->] | [_ ->]].
  - exists 0%R. split; [reflexivity | lra].
  - destruct (sigmoid_finite (ln (u / (1 - u)))) as (s & -> & Hs).
    exists s. split; [reflexivity | lra].
Qed.

Lemma Rpower_inv_base a c : (0 < a)%R -> c ≠ 0%R -> Rpower (Rpower a c) (1 / c) = a.
Proof.
  intros Ha Hc. rewrite Rpower_mult.
  replace (c * (1 / c))%R with 1%R by (field; done).
  by apply Rpower_1.
Qed.

Lemma power_law_forward_range a b alpha s :
  (0 < a < b)%R -> alpha ≠ (-1)%R -> (0 <= s < 1)%R ->
  exists r,
    fpow (fadd (fmul (fsub (fpow (Finite b) (fadd (Finite 1) (Finite alpha)))
                           (fpow (Finite a) (fadd (Finite 1) (Finite alpha))))
                     (Finite s))
               (fpow (Finite a) (fadd (Finite 1) (Finite alpha))))
         (fdiv (Finite 1) (fadd (Finite 1) (Finite alpha))) = Finite r /\
    (a <= r < b)%R.
Proof.
  intros [Ha Hab] Halpha [Hs0 Hs1].
  assert (Hc : (1 + alpha)%R ≠ 0%R) by lra.
  rewrite fadd_finite, !fpow_pos, fsub_finite, fmul_finite, fadd_finite,
    fdiv_finite by lra.
  set (c := (1 + alpha)%R) in *.
  assert (HPa : (0 < Rpower a c)%R) by apply exp_pos.
  assert (HPb : (0 < Rpower b c)%R) by apply exp_pos.
  assert (Hic : (1 / c)%R ≠ 0%R).
  { unfold Rdiv. rewrite Rmult_1_l. by apply Rinv_neq_0_compat. }
  set (t := ((Rpower b c - Rpower a c) * s + Rpower a c)%R).
  destruct (Rtotal_order 0 c) as [Hpos | [Hz | Hneg]]; [| by destruct Hc |].
  - pose proof (Rpower_lt_base c a b Hpos ltac:(lra)) as Hlt.
    assert (Ht : (Rpower a c <= t < Rpower b c)%R) by (unfold t; split; nra).
    rewrite fpow_pos by (done || lra).
    eexists. split; [reflexivity|].
    assert (Hipos : (0 < 1 / c)%R) by (apply Rdiv_lt_0_compat; lra).
    rewrite <- (Rpower_inv_base a c Ha Hc) at 1.
    rewrite <- (Rpower_inv_base b c ltac:(lra) Hc) at 1. split.
    + destruct Ht as [[Hlt' | <-] _]; [left; apply Rpower_lt_base; lra | right; done].
    + apply Rpower_lt_base; lra.
  - pose proof (Rpower_gt_base c a b Hneg ltac:(lra)) as Hlt.
    assert (Ht : (Rpower b c < t <= Rpower a c)%R) by (unfold t; split; nra).
    rewrite fpow_pos by (done || lra).
    eexists. split; [reflexivity|].
    assert (Hineg : (1 / c < 0)%R).
    { unfold Rdiv. rewrite Rmult_1_l. by apply Rinv_lt_0_compat. }
    rewrite <- (Rpower_inv_base a c Ha Hc) at 1.
    rewrite <- (Rpower_inv_base b c ltac:(lra) Hc) at 1. split.
    + destruct Ht as [Hlo [Hlt' | ->]]; [left; apply Rpower_gt_base; lra | right; done].
    + apply Rpower_gt_base; lra.
Qed.

Lemma pareto_forward_range a b s :
  (0 < a < b)%R -> (0 <= s < 1)%R ->
  exists r,
    fmul (Finite a) (fexp (fmul (Finite s) (flog (fdiv (Finite b) (Finite a)))))
    = Finite r /\ (a <= r < b)%R.
Proof.
  intros [Ha Hab] [Hs0 Hs1].
  assert (Hia : (0 < / a)%R) by by apply Rinv_0_lt_compat.
  assert (Hone : (a * / a = 1)%R) by (apply Rinv_r; lra).
  assert (Hba : (1 < b / a)%R) by (unfold Rdiv; nra).
  assert (HL : (0 < ln (b / a))%R) by (rewrite <- ln_1; apply ln_increasing; lra).
  rewrite fdiv_finite, flog_pos, fmul_finite, fexp_finite, fmul_finite by lra.
  eexists. split; [reflexivity|].
  assert (Hlo : (1 <= exp (s * ln (b / a)))%R).
  { rewrite <- exp_0. destruct Hs0 as [Hs0 | <-].
    - left. apply exp_increasing. nra.
    - right. f_equal. lra. }
  assert (Hhi : (exp (s * ln (b / a)) < b / a)%R).
  { rewrite <- (exp_ln (b / a)) at 2 by lra. apply exp_increasing. nra. }
  split; [nra|].
  apply Rlt_le_trans with (a * (b / a))%R; [nra|]. right. field. lra.
Qed.

(** Opens a successful [PowerLawPrior] construction into the object built. *)
Ltac open_power_law Hp :=
  unfold PowerLawPrior, assert in Hp;
  cbn [length Nat.eqb mbind result_bind] in Hp;
  do 2 (match type of Hp with
        | context [flt ?x ?y] =>
            destruct (flt x y); cbn [mbind result_bind] in Hp; [|discriminate]
        end);
  unfold index, LogisticDistribution, assert, SequentialTransformPrior in Hp;
  cbn [lookup list_lookup length Nat.eqb mbind result_bind] in Hp;
  injection Hp as <-.

Lemma PowerLawPrior_names xmin xmax alpha name p :
  PowerLawPrior xmin xmax alpha [name] = Ok p ->
  parameter_names p = [name] /\ leaves p = [MkLogistic [name +:+ "_base"]].
Proof.
  intros Hp. open_power_law Hp. cbn [parameter_names leaves foldl].
  unfold LogitTransform at 1. rewrite propagate_single.
  split; [|reflexivity].
  destruct (feqb alpha (Finite (-1)));
    unfold ParetoTransform, PowerLawTransform; cbv zeta; apply propagate_single.
Qed.

(** [PowerLawPrior] checks its arguments in a fixed order: one name, then
    [xmin < xmax], then [xmin > 0]; a NaN bound fails the comparison it
    enters.  With [0 < a < b] it is constructed for every exponent, its only
    parameter name is the given one and its only leaf the logistic
    distribution named [<name>_base]. *)
Theorem PowerLawPrior_construction (a b : R) alpha name :
  ((0 < a < b)%R ->
   exists p, PowerLawPrior (Finite a) (Finite b) alpha [name] = Ok p /\
     parameter_names p = [name] /\ leaves p = [MkLogistic [name +:+ "_base"]]) /\
  ((b <= a)%R ->
   PowerLawPrior (Finite a) (Finite b) alpha [name] =
   Raise (AssertionError "xmin must be less than xmax")) /\
  ((a < b)%R -> (a <= 0)%R ->
   PowerLawPrior (Finite a) (Finite b) alpha [name] =
   Raise (AssertionError "x must be positive")) /\
  PowerLawPrior NaN (Finite b) alpha [name] =
    Raise (AssertionError "xmin must be less than xmax") /\
  PowerLawPrior (Finite a) NaN alpha [name] =
    Raise (AssertionError "xmin must be less than xmax") /\
  (forall names, length names ≠ 1 ->
     PowerLawPrior (Finite a) (Finite b) alpha names =
     Raise (AssertionError "Power law needs to be 1D distributions")).
Proof.
  split_and!.
  - intros Hab. destruct (PowerLawPrior_constructs a b alpha name Hab) as [p Hp].
    exists p. split; [exact Hp|]. by apply PowerLawPrior_names in Hp.
  - intros Hba. unfold PowerLawPrior. cbn.
    by rewrite (flt_finite_false a b) by done.
  - intros Hab Ha. unfold PowerLawPrior. cbn.
    rewrite (flt_finite a b) by done. cbn.
    by rewrite (flt_finite_false 0 a) by done.
  - reflexivity.
  - reflexivity.
  - intros [|n1 [|n2 names]] Hlen; [reflexivity | done | reflexivity].
Qed.

Section PowerLawContract.
Context `{JaxRandom}.

Lemma PowerLawPrior_sample_unfold xmin xmax alpha name p (key : PRNGKeyArray) n :
  PowerLawPrior xmin xmax alpha [name] = Ok p ->
  sample p key n =
  Ok {[ name :=
          map (fun u =>
                 let s := sigmoid (logit u) in
                 if feqb alpha (Finite (-1))
                 then fmul xmin (fexp (fmul s (flog (fdiv xmax xmin))))
                 else fpow (fadd (fmul (fsub (fpow xmax (fadd (Finite 1) alpha))
                                             (fpow xmin (fadd (Finite 1) alpha))) s)
                                 (fpow xmin (fadd (Finite 1) alpha)))
                           (fdiv (Finite 1) (fadd (Finite 1) alpha)))
              (uniform key n 0 1) ]}.
Proof.
  intros Hp. open_power_law Hp.
  cbn [sample mbind result_bind]. rewrite add_name_single.
  unfold vmap_transform. rewrite <- insert_empty, batch_size_singleton.
  cbn [mbind result_bind transform_batch]. rewrite insert_empty.
  unfold LogitTransform.
  rewrite (forward_batch_single _ _ _ _ _ _ _ _ (lookup_singleton_eq _ _) eq_refl).
  cbn [mbind result_bind]. rewrite delete_singleton_eq, insert_empty.
  destruct (feqb alpha (Finite (-1)));
    unfold ParetoTransform, PowerLawTransform; cbv zeta;
    rewrite (forward_batch_single _ _ _ _ _ _ _ _ (lookup_singleton_eq _ _))
      by (by rewrite !length_map);
    rewrite delete_singleton_eq, insert_empty, !map_map; reflexivity.
Qed.

(** Every value that a [PowerLawPrior(a, b, alpha)] with [0 < a < b]
    samples is a finite number in [[a, b)], on the power-law branch and on
    the Pareto branch alike; the sample holds one array of the requested
    length under the prior's name. *)
Theorem PowerLawPrior_sample_range (a b alpha : R) name :
  (0 < a < b)%R ->
  exists p, PowerLawPrior (Finite a) (Finite b) (Finite alpha) [name] = Ok p /\
    forall (key : PRNGKeyArray) n, exists arr,
      sample p key n = Ok {[ name := arr ]} /\ length arr = n /\
      Forall (fun y => exists r, y = Finite r /\ (a <= r < b)%R) arr.
Proof.
  intros Hab.
  destruct (PowerLawPrior_constructs a b (Finite alpha) name Hab) as [p Hp].
  exists p. split; [exact Hp|]. intros key n.
  rewrite (PowerLawPrior_sample_unfold _ _ _ _ _ key n Hp).
  eexists. split; [reflexivity|]. split; [by rewrite length_map, uniform_shape|].
  apply Forall_map, Forall_forall. intros v Hv.
  apply uniform_range in Hv as (u & -> & Hu); [|lra].
  destruct (unit_draw_sigmoid u Hu) as (s & Hs & Hs01). cbv zeta. rewrite Hs.
  destruct (Req_dec alpha (-1)) as [-> | Halpha].
  - unfold feqb. rewrite rcmp_Eq. by apply pareto_forward_range.
  - rewrite feqb_finite_ne by done. by apply power_law_forward_range.
Qed.

End PowerLawContract.

(** C7, refuted as stated: the lower bound is a value that a power-law
    prior samples, when the draw of the unit uniform sampler is [0], and
    there, as at the upper bound, the log-density is NaN and not the closed
    form; so for the Pareto branch of [PowerLawPrior(0.05, 10, -1)] and for
    the power-law branch of [PowerLawPrior(1, 2000, 2)]. *)
Lemma PowerLawPrior_bounds_are_nan :
  (exists p, PowerLawPrior (Finite 0.05) (Finite 10) (Finite (-1)) ["x"] = Ok p /\
     @sample constant_random p 0%Z 1 = Ok {[ "x" := [Finite 0.05] ]} /\
     log_prob p (<["x" := Finite 0.05]> ∅) = Ok NaN /\
     log_prob p (<["x" := Finite 10]> ∅) = Ok NaN /\
     log_prob p (<["x" := Finite 0.05]> ∅) ≠
       Ok (Finite (- ln 0.05 - ln (ln (10 / 0.05)))) /\
     log_prob p (<["x" := Finite 10]> ∅) ≠
       Ok (Finite (- ln 10 - ln (ln (10 / 0.05))))) /\
  (exists p, PowerLawPrior (Finite 1) (Finite 2000) (Finite 2) ["d_L"] = Ok p /\
     @sample constant_random p 0%Z 1 = Ok {[ "d_L" := [Finite 1] ]} /\
     log_prob p (<["d_L" := Finite 1]> ∅) = Ok NaN /\
     log_prob p (<["d_L" := Finite 2000]> ∅) = Ok NaN /\
     log_prob p (<["d_L" := Finite 1]> ∅) ≠
       Ok (Finite (ln ((1 + 2) / (Rpower 2000 (1 + 2) - Rpower 1 (1 + 2)))
                   + 2 * ln 1)) /\
     log_prob p (<["d_L" := Finite 2000]> ∅) ≠
       Ok (Finite (ln ((1 + 2) / (Rpower 2000 (1 + 2) - Rpower 1 (1 + 2)))
                   + 2 * ln 2000))).
Proof.
  assert (Hs0 : sigmoid (logit (Finite 0)) = Finite 0) by by rewrite logit_zero.
  split.
  - destruct (PowerLawPrior_constructs 0.05 10 (Finite (-1)) "x") as [p Hp]; [lra|].
    assert (Hat : forall x, (x = 0.05 \/ x = 10)%R ->
              log_prob p (<["x" := Finite x]> ∅) = Ok NaN).
    { intros x Hx.
      rewrite (PowerLawPrior_log_prob_unfold _ _ _ _ _ _ _ Hp (lookup_insert_eq _ _ _)).
      unfold feqb. rewrite rcmp_Eq. by rewrite pareto_log_prob_boundary by (lra || done). }
    exists p. split_and!; [exact Hp | | | | |];
      try (rewrite Hat by first [by left | by right]; done).
    rewrite (PowerLawPrior_sample_unfold _ _ _ _ _ _ _ Hp).
    cbn [uniform constant_random constant_uniform replicate map]. cbv zeta.
    rewrite Hs0. unfold feqb. rewrite rcmp_Eq.
    rewrite fdiv_finite, flog_pos, fmul_finite, fexp_finite, fmul_finite by lra.
    rewrite Rmult_0_l, exp_0.
    by replace (0.05 * 1)%R with 0.05%R by lra.
  - destruct (PowerLawPrior_constructs 1 2000 (Finite 2) "d_L") as [p Hp]; [lra|].
    assert (Hat : forall x, (x = 1 \/ x = 2000)%R ->
              log_prob p (<["d_L" := Finite x]> ∅) = Ok NaN).
    { intros x Hx.
      rewrite (PowerLawPrior_log_prob_unfold _ _ _ _ _ _ _ Hp (lookup_insert_eq _ _ _)).
      rewrite feqb_finite_ne by lra.
      by rewrite power_law_log_prob_boundary by (lra || done). }
    exists p. split_and!; [exact Hp | | | | |];
      try (rewrite Hat by first [by left | by right]; done).
    rewrite (PowerLawPrior_sample_unfold _ _ _ _ _ _ _ Hp).
    cbn [uniform constant_random constant_uniform replicate map]. cbv zeta.
    rewrite Hs0. rewrite feqb_finite_ne by lra.
    rewrite fadd_finite, !fpow_pos, fsub_finite, fmul_finite, fadd_finite,
      fdiv_finite by lra.
    replace ((Rpower 2000 (1 + 2) - Rpower 1 (1 + 2)) * 0 + Rpower 1 (1 + 2))%R
      with (Rpower 1 (1 + 2)) by lra.
    rewrite fpow_pos.
    + by rewrite Rpower_inv_base by lra.
    + apply exp_pos.
    + lra.
Qed.

(** ** The power-law density against the tests' reference *)

Lemma power_law_normalization a b c :
  (0 < a < b)%R -> c ≠ 0%R ->
  (Rpower b c - Rpower a c)%R ≠ 0%R /\ (0 < c / (Rpower b c - Rpower a c))%R.
Proof.
  intros [Ha Hab] Hc.
  destruct (Rtotal_order 0 c) as [Hpos | [Hz | Hneg]]; [| by destruct Hc |].
  - pose proof (Rpower_lt_base c a b Hpos ltac:(lra)).
    split; [lra | apply Rdiv_lt_0_compat; lra].
  - pose proof (Rpower_gt_base c a b Hneg ltac:(lra)).
    split; [lra|].
    replace (c / (Rpower b c - Rpower a c))%R
      with ((- c) / (Rpower a c - Rpower b c))%R by (field; lra).
    apply Rdiv_lt_0_compat; lra.
Qed.

Lemma powerlaw_log_pdf_interior a b alpha x :
  (0 < a < b)%R -> (a < x < b)%R ->
  powerlaw_log_pdf (Finite x) (Finite alpha) (Finite a) (Finite b) =
  if feqb (Finite alpha) (Finite (-1))
  then Finite (- ln x - ln (ln (b / a)))
  else Finite (ln ((1 + alpha) / (Rpower b (1 + alpha) - Rpower a (1 + alpha)))
               + alpha * ln x).
Proof.
  intros [Ha Hab] [Hax Hxb]. unfold powerlaw_log_pdf.
  destruct (Req_dec alpha (-1)) as [-> | Halpha].
  - unfold feqb. rewrite rcmp_Eq.
    pose proof (ln_increasing a b Ha Hab) as Hln.
    rewrite (flog_pos b), (flog_pos a), (flog_pos x), fsub_finite by lra.
    rewrite fdiv_finite by lra.
    rewrite flog_pos by (apply Rdiv_lt_0_compat; lra).
    rewrite fmul_finite, fadd_finite.
    assert (Hdiv : ln (b / a) = (ln b - ln a)%R).
    { unfold Rdiv. rewrite ln_mult, ln_Rinv; [lra | lra | lra |].
      apply Rinv_0_lt_compat. lra. }
    assert (Hinv : ln (1 / (ln b - ln a)) = (- ln (ln b - ln a))%R).
    { unfold Rdiv. rewrite Rmult_1_l. apply ln_Rinv. lra. }
    rewrite Hdiv, Hinv. f_equal. lra.
  - rewrite feqb_finite_ne by done.
    assert (Hc : (1 + alpha)%R ≠ 0%R) by lra.
    destruct (power_law_normalization a b (1 + alpha)) as [Hw Hnorm]; [lra | done |].
    by rewrite fadd_finite, !fpow_pos, fsub_finite, fdiv_finite, !flog_pos,
      fmul_finite, fadd_finite by lra.
Qed.

(** At a point strictly between the bounds, the log-density of a
    constructed [PowerLawPrior] is the value of [powerlaw_log_pdf], the
    reference that [test_power_law] compares it with, on both branches. *)
Theorem PowerLawPrior_matches_test_reference (a b alpha x : R) name p
    (z : gmap string Float) :
  (0 < a < b)%R -> (a < x < b)%R ->
  PowerLawPrior (Finite a) (Finite b) (Finite alpha) [name] = Ok p ->
  z !! name = Some (Finite x) ->
  log_prob p z = Ok (powerlaw_log_pdf (Finite x) (Finite alpha) (Finite a) (Finite b)).
Proof.
  intros Hab Hx Hp Hz.
  rewrite (PowerLawPrior_log_prob_unfold _ _ _ _ _ _ _ Hp Hz).
  rewrite powerlaw_log_pdf_interior by done.
  destruct (Req_dec alpha (-1)) as [-> | Halpha].
  - unfold feqb. rewrite rcmp_Eq. by rewrite pareto_log_prob_interior.
  - rewrite feqb_finite_ne by done. by rewrite power_law_log_prob_interior.
Qed.

Lemma PowerLawPrior_matches_test_reference_witness :
  exists p,
    PowerLawPrior (Finite 0.05) (Finite 10) (Finite (-1)) ["x"] = Ok p /\
    log_prob p (<["x" := Finite 1]> ∅)
    = Ok (powerlaw_log_pdf (Finite 1) (Finite (-1)) (Finite 0.05) (Finite 10)).
Proof.
  destruct (PowerLawPrior_constructs 0.05 10 (Finite (-1)) "x") as [p Hp]; [lra|].
  exists p. split; [exact Hp|].
  apply (PowerLawPrior_matches_test_reference 0.05 10 (-1) 1 "x" p);
    [lra | lra | exact Hp | apply lookup_insert_eq].
Defined.

(** [UniformInComponentsChirpMassPrior(a, b)] with [0 < a < b] is the
    power law of exponent one on the name ["M_c"]: at a chirp mass [x]
    strictly between the bounds its density is [2x / (b^2 - a^2)], linear in
    the chirp mass. *)
Theorem ChirpMassPrior_log_prob (a b x : R) (z : gmap string Float) :
  (0 < a < b)%R -> (a < x < b)%R ->
  z !! "M_c" = Some (Finite x) ->
  exists p, UniformInComponentsChirpMassPrior (Finite a) (Finite b) = Ok p /\
    parameter_names p = ["M_c"] /\
    log_prob p z = Ok (Finite (ln (2 * x / (b * b - a * a)))).
Proof.
  intros Hab Hx Hz. unfold UniformInComponentsChirpMassPrior.
  destruct (PowerLawPrior_constructs a b (Finite 1) "M_c" Hab) as [p Hp].
  exists p. split; [exact Hp|].
  split; [exact (proj1 (PowerLawPrior_names _ _ _ _ _ Hp))|].
  rewrite (PowerLawPrior_log_prob_unfold _ _ _ _ _ _ _ Hp Hz).
  rewrite feqb_finite_ne by lra.
  rewrite power_law_log_prob_interior by (done || lra).
  assert (Hsq : forall y, (0 < y)%R -> Rpower y (1 + 1) = (y * y)%R).
  { intros y Hy. replace (1 + 1)%R with (INR 2) by (cbn; lra).
    rewrite Rpower_pow by done. cbn. lra. }
  rewrite !Hsq by lra.
  assert (Hden : (0 < b * b - a * a)%R) by nra.
  do 2 f_equal. rewrite Rmult_1_l, <- ln_mult; [|apply Rdiv_lt_0_compat; lra|lra].
  f_equal. field. lra.
Qed.

Lemma ChirpMassPrior_log_prob_witness :
  exists p, UniformInComponentsChirpMassPrior (Finite 10) (Finite 80) = Ok p /\
    log_prob p (<["M_c" := Finite 30]> ∅) = Ok (Finite (ln (2 * 30 / (80 * 80 - 10 * 10)))).
Proof.
  destruct (ChirpMassPrior_log_prob 10 80 30 (<["M_c" := Finite 30]> ∅))
    as (p & Hp & _ & Hl); [lra | lra | apply lookup_insert_eq |].
  by exists p.
Defined.

(** ** Uniform priors with bounds nobody checked *)

Lemma through_logit_nonfinite lj u :
  (forall r, u ≠ Finite r) -> through_logit lj u = NaN.
Proof.
  intros Hu. unfold through_logit.
  assert (Hlj : logit_log_jacobian u = NaN).
  { destruct u as [r| | |]; [by destruct (Hu r) | reflexivity..]. }
  by rewrite Hlj, fadd_NaN_r, fadd_NaN_l.
Qed.

Lemma uniform_log_prob_equal_bounds c x :
  uniform_log_prob (Finite c) (Finite c) (Finite x) = NaN.
Proof.
  unfold uniform_log_prob. cbv zeta. rewrite !fsub_finite.
  replace (c - c)%R with 0%R by lra.
  apply through_logit_nonfinite. intros r.
  unfold fdiv. rewrite rcmp_Eq. unfold inf_signed.
  by destruct (rcmp (x - c) 0).
Qed.

Lemma uniform_log_prob_reversed a b x :
  (a < b)%R -> (a < x < b)%R ->
  uniform_log_prob (Finite b) (Finite a) (Finite x) = Finite (- ln (b - a)).
Proof.
  intros Hab Hx. unfold uniform_log_prob. cbv zeta.
  rewrite !fsub_finite, fdiv_finite by lra.
  unfold fabs. rewrite Rabs_left, flog_pos, fneg_finite, !fadd_finite by lra.
  rewrite through_logit_interior.
  - f_equal. replace (- (a - b))%R with (b - a)%R by lra. lra.
  - replace ((x - b) / (a - b))%R with ((- x - - b) / (- a - - b))%R by (field; lra).
    apply unit_ratio; lra.
Qed.

Section UncheckedBounds.
Context `{FloatFormat}.

(** [UniformPrior] accepts bounds it cannot serve.  With equal bounds the
    prior is constructed and its log-density is NaN at every finite point.
    With the bounds in reverse order it is constructed too, and its
    log-density between them is that of the prior with the bounds in
    order. *)
Theorem UniformPrior_unchecked_bounds name (z : gmap string Float) (x : R) :
  z !! name = Some (Finite x) ->
  (forall c, exists p,
     UniformPrior (Finite c) (Finite c) [name] = Ok p /\ log_prob p z = Ok NaN) /\
  (forall a b, (a < b)%R -> (a < x < b)%R -> exists p,
     UniformPrior (Finite b) (Finite a) [name] = Ok p /\
     log_prob p z = Ok (Finite (- ln (b - a)))).
Proof.
  intros Hz. split.
  - intros c.
    destruct (UniformPrior_log_prob_unfold (Finite c) (Finite c) name z _ Hz)
      as (p & Hp & Hl).
    exists p. by rewrite Hl, uniform_log_prob_equal_bounds.
  - intros a b Hab Hx.
    destruct (UniformPrior_log_prob_unfold (Finite b) (Finite a) name z _ Hz)
      as (p & Hp & Hl).
    exists p. by rewrite Hl, uniform_log_prob_reversed.
Qed.

End UncheckedBounds.

Lemma UniformPrior_unchecked_bounds_witness :
  (exists p, @UniformPrior constant_format (Finite 3) (Finite 3) ["x"] = Ok p /\
     log_prob p (<["x" := Finite 3]> ∅) = Ok NaN) /\
  (exists p, @UniformPrior constant_format (Finite 10) (Finite (-10)) ["x"] = Ok p /\
     log_prob p (<["x" := Finite 3]> ∅) = Ok (Finite (- ln (10 - -10)))).
Proof.
  destruct (@UniformPrior_unchecked_bounds constant_format "x"
              (<["x" := Finite 3]> ∅) 3) as [Heq Hrev];
    [apply lookup_insert_eq|].
  split; [apply Heq | apply Hrev; lra].
Defined.

(** ** Densities of the angular priors *)

Lemma sin_interior x : (- (PI / 2) < x < PI / 2)%R -> (-1 < sin x < 1)%R.
Proof.
  intros [Hlo Hhi]. pose proof PI_RGT_0 as Hpi. split.
  - replace (-1)%R with (sin (- (PI / 2))) by (rewrite sin_neg, sin_PI2; lra).
    apply sin_increasing_1; lra.
  - rewrite <- sin_PI2. apply sin_increasing_1; lra.
Qed.

Section AngularDensity.
Context `{FloatFormat}.

Lemma CosinePrior_log_prob_at name (z : gmap string Float) x :
  z !! name = Some (Finite x) -> (- (PI / 2) < x < PI / 2)%R ->
  exists p, CosinePrior [name] = Ok p /\ log_prob p z = Ok (Finite (ln (cos x / 2))).
Proof.
  intros Hz Hx.
  destruct (UniformPrior_log_prob_unfold (Finite (-1)) (Finite 1)
              ("sin(" +:+ name +:+ ")")
              (<["sin(" +:+ name +:+ ")" := fsin (Finite x)]> (delete name z))
              _ (lookup_insert_eq _ _ _)) as (u & Hu & Hl).
  unfold CosinePrior. cbn [length Nat.eqb assert mbind result_bind index lookup list_lookup].
  rewrite Hu. cbn [mbind result_bind].
  eexists. split; [reflexivity|].
  cbn [log_prob rev app inverse_loop]. unfold ArcSineTransform.
  rewrite (inverse_single _ _ _ _ _ z _ Hz). cbn [mbind result_bind fst snd].
  rewrite Hl. cbn [mbind result_bind].
  pose proof (cos_gt_0 x ltac:(lra) ltac:(lra)) as Hcos.
  unfold fsin, fcos, fabs.
  rewrite uniform_log_prob_interior by (lra || by apply sin_interior).
  rewrite Rabs_pos_eq, flog_pos, !fadd_finite by lra.
  do 2 f_equal. unfold Rdiv. rewrite ln_mult, ln_Rinv by lra.
  replace (1 - -1)%R with 2%R by lra. lra.
Qed.

(** The log-density of [CosinePrior] at an angle [x] strictly between
    [-pi/2] and [pi/2] is [log(cos(x)/2)], as [test_cosine] expects. *)
Theorem CosinePrior_log_prob name (z : gmap string Float) x :
  z !! name = Some (Finite x) -> (- (PI / 2) < x < PI / 2)%R ->
  exists p, CosinePrior [name] = Ok p /\ log_prob p z = Ok (Finite (ln (cos x / 2))).
Proof. apply CosinePrior_log_prob_at. Qed.

Lemma SinePrior_log_prob_at name (z : gmap string Float) x :
  z !! name = Some (Finite x) -> (0 < x < PI)%R ->
  exists p, SinePrior [name] = Ok p /\ log_prob p z = Ok (Finite (ln (sin x / 2))).
Proof.
  intros Hz Hx.
  destruct (CosinePrior_log_prob_at (name +:+ "-pi/2")
              (<[name +:+ "-pi/2" := fsub (Finite x) (Finite (PI / 2))]> (delete name z))
              (x - PI / 2)) as (c & Hc & Hl); [apply lookup_insert_eq | lra |].
  unfold SinePrior. cbn [length Nat.eqb assert mbind result_bind index lookup list_lookup].
  rewrite Hc. cbn [mbind result_bind].
  eexists. split; [reflexivity|].
  cbn [log_prob rev app inverse_loop]. unfold OffsetTransform.
  rewrite (inverse_single _ _ _ _ _ z _ Hz). cbn [mbind result_bind fst snd].
  rewrite Hl. cbn [mbind result_bind]. rewrite !fadd_finite.
  do 2 f_equal.
  replace (cos (x - PI / 2)) with (sin x); [lra|].
  rewrite <- cos_shift, <- cos_neg. f_equal. lra.
Qed.

(** The log-density of [SinePrior] at an angle [x] strictly between [0] and
    [pi] is [log(sin(x)/2)], as [test_sine] expects: the offset by [pi/2]
    turns the cosine of the base into the sine. *)
Theorem SinePrior_log_prob name (z : gmap string Float) x :
  z !! name = Some (Finite x) -> (0 < x < PI)%R ->
  exists p, SinePrior [name] = Ok p /\ log_prob p z = Ok (Finite (ln (sin x / 2))).
Proof. apply SinePrior_log_prob_at. Qed.

(** The log-density of [UniformSpherePrior] at a magnitude strictly inside
    [(0, 1)], a polar angle [theta] strictly inside [(0, pi)] and an azimuth
    strictly inside [(0, 2 pi)] is [log(sin(theta) / (4 pi))]: the three
    components add up to the area density of the unit sphere. *)
Theorem UniformSpherePrior_log_prob name (z : gmap string Float) (r theta phi : R) :
  z !! (name +:+ "_mag") = Some (Finite r) ->
  z !! (name +:+ "_theta") = Some (Finite theta) ->
  z !! (name +:+ "_phi") = Some (Finite phi) ->
  (0 < r < 1)%R -> (0 < theta < PI)%R -> (0 < phi < 2 * PI)%R ->
  exists p, UniformSpherePrior [name] = Ok p /\
    log_prob p z = Ok (Finite (ln (sin theta / (4 * PI)))).
Proof.
  intros Hr Htheta Hphi Hr01 Ht Hp2.
  pose proof PI_RGT_0 as Hpi.
  destruct (UniformPrior_log_prob_unfold (Finite 0) (Finite 1) _ z _ Hr)
    as (mag & Hmag & Hl1).
  destruct (SinePrior_log_prob_at _ z theta Htheta Ht) as (th & Hth & Hl2).
  destruct (UniformPrior_log_prob_unfold (Finite 0) (fmul (Finite 2) (Finite PI)) _ z _ Hphi)
    as (ph & Hph & Hl3).
  unfold UniformSpherePrior.
  cbn [length Nat.eqb assert mbind result_bind index lookup list_lookup].
  rewrite Hmag. cbn [mbind result_bind]. rewrite Hth. cbn [mbind result_bind].
  rewrite Hph. cbn [mbind result_bind].
  eexists. split; [reflexivity|].
  cbn [log_prob]. rewrite Hl1. cbn [mbind result_bind].
  rewrite Hl2. cbn [mbind result_bind]. rewrite Hl3. cbn [mbind result_bind].
  rewrite fmul_finite, !uniform_log_prob_interior, !fadd_finite by lra.
  assert (Hsin : (0 < sin theta)%R) by (apply sin_gt_0; lra).
  do 2 f_equal.
  replace (1 - 0)%R with 1%R by lra. rewrite ln_1.
  replace (2 * PI - 0)%R with (2 * PI)%R by lra.
  replace (sin theta / (4 * PI))%R with (sin theta / 2 * / (2 * PI))%R by (field; lra).
  rewrite (ln_mult (sin theta / 2)), ln_Rinv; [lra | lra | lra |].
  apply Rinv_0_lt_compat. lra.
Qed.

End AngularDensity.

Lemma CosinePrior_log_prob_witness :
  exists p, @CosinePrior constant_format ["dec"] = Ok p /\
    log_prob p (<["dec" := Finite 0]> ∅) = Ok (Finite (ln (cos 0 / 2))).
Proof.
  apply (@CosinePrior_log_prob constant_format "dec"); [apply lookup_insert_eq|].
  pose proof PI_RGT_0. lra.
Defined.

Lemma SinePrior_log_prob_witness :
  exists p, @SinePrior constant_format ["iota"] = Ok p /\
    log_prob p (<["iota" := Finite 1]> ∅) = Ok (Finite (ln (sin 1 / 2))).
Proof.
  apply (@SinePrior_log_prob constant_format "iota"); [apply lookup_insert_eq|].
  pose proof PI_RGT_0. pose proof PI2_3_2. lra.
Defined.

(** ** Forward and back through the uniform chain *)

Lemma forward_single a b f finv flj (x : gmap string Float) v :
  x !! a = Some v ->
  forward (coordinatewise ([a], [b]) f finv flj) x = Ok (<[b := f v]> (delete a x)).
Proof.
  intros Hv. unfold forward, getitem. cbn. by rewrite Hv.
Qed.

Lemma sigmoid_value t : sigmoid (Finite t) = Finite (1 / (1 + exp (- t))).
Proof.
  pose proof (exp_pos (- t)). unfold sigmoid.
  rewrite fneg_finite, fexp_finite, fadd_finite. apply fdiv_finite. lra.
Qed.

Lemma sigmoid_unit t : (0 < 1 / (1 + exp (- t)) < 1)%R.
Proof.
  destruct (sigmoid_finite t) as (r & Hr & Hr01).
  rewrite sigmoid_value in Hr. by injection Hr as ->.
Qed.

Lemma logit_sigmoid t : logit (Finite (1 / (1 + exp (- t)))) = Finite t.
Proof.
  pose proof (exp_pos (- t)) as He. pose proof (sigmoid_unit t) as Hs.
  rewrite logit_interior by done. f_equal.
  replace (1 / (1 + exp (- t)) / (1 - 1 / (1 + exp (- t))))%R
    with (/ exp (- t))%R by (field; lra).
  rewrite <- exp_Ropp, Ropp_involutive. apply ln_exp.
Qed.

Section UniformRoundTrip.
Context `{FloatFormat}.

Lemma UniformPrior_object xmin xmax name :
  exists ns unit_name shifted_name,
    UniformPrior xmin xmax [name] =
    Ok (MkSequential ns (MkLogistic [name +:+ "_base"])
          [ LogitTransform ([name +:+ "_base"], [unit_name]);
            ScaleTransform ([unit_name], [shifted_name]) (fsub xmax xmin);
            OffsetTransform ([shifted_name], [name]) xmin ]).
Proof. eexists _, _, _. reflexivity. Qed.

(** The two directions of a [UniformPrior(a, b)] with [a < b] undo each
    other.  The forward chain of its transforms sends every finite base
    value to a point strictly between the bounds, under the prior's name;
    the inverses, applied in reverse order to that point, return the base
    value under the base name; and the log-density at that point is
    [-log(b - a)]. *)
Theorem UniformPrior_transform_round_trip (a b : R) name :
  (a < b)%R ->
  exists ns base ts,
    UniformPrior (Finite a) (Finite b) [name] = Ok (MkSequential ns base ts) /\
    forall t : R, exists x,
      transform ts {[ name +:+ "_base" := Finite t ]} = Ok {[ name := Finite x ]} /\
      (a < x < b)%R /\
      (exists ljs, inversion_chain (rev ts) {[ name := Finite x ]}
                   = Ok ({[ name +:+ "_base" := Finite t ]}, ljs)) /\
      log_prob (MkSequential ns base ts) {[ name := Finite x ]}
      = Ok (Finite (- ln (b - a))).
Proof.
  intros Hab.
  destruct (UniformPrior_object (Finite a) (Finite b) name) as (ns & nu & nsh & Hp).
  eexists _, _, _. split; [exact Hp|]. intros t.
  pose proof (sigmoid_unit t) as Hs.
  set (s := (1 / (1 + exp (- t)))%R) in *.
  exists (s * (b - a) + a)%R.
  assert (Hx : (a < s * (b - a) + a < b)%R) by nra.
  split; [|split; [exact Hx|split]].
  - cbn [transform]. unfold LogitTransform, ScaleTransform, OffsetTransform.
    rewrite (forward_single _ _ _ _ _ _ _ (lookup_singleton_eq _ _)).
    cbn [mbind result_bind]. rewrite delete_singleton_eq, insert_empty.
    rewrite (forward_single _ _ _ _ _ _ _ (lookup_singleton_eq _ _)).
    cbn [mbind result_bind]. rewrite delete_singleton_eq, insert_empty.
    rewrite (forward_single _ _ _ _ _ _ _ (lookup_singleton_eq _ _)).
    rewrite delete_singleton_eq, insert_empty.
    by rewrite sigmoid_value, fsub_finite, fmul_finite, fadd_finite.
  - eexists. cbn [rev app inversion_chain].
    unfold LogitTransform, ScaleTransform, OffsetTransform.
    rewrite (inverse_single _ _ _ _ _ _ _ (lookup_singleton_eq _ _)).
    cbn [mbind result_bind fst snd]. rewrite delete_singleton_eq, insert_empty.
    rewrite (inverse_single _ _ _ _ _ _ _ (lookup_singleton_eq _ _)).
    cbn [mbind result_bind fst snd]. rewrite delete_singleton_eq, insert_empty.
    rewrite (inverse_single _ _ _ _ _ _ _ (lookup_singleton_eq _ _)).
    cbn [mbind result_bind fst snd]. rewrite delete_singleton_eq, insert_empty.
    rewrite !fsub_finite, fdiv_finite by lra.
    replace ((s * (b - a) + a - a) / (b - a))%R with s by (field; lra).
    unfold s. rewrite logit_sigmoid. reflexivity.
  - destruct (UniformPrior_log_prob_unfold (Finite a) (Finite b) name
                {[ name := Finite (s * (b - a) + a) ]} _ (lookup_singleton_eq _ _))
      as (p' & Hp' & Hl).
    rewrite Hp in Hp'. injection Hp' as <-. rewrite Hl.
    by rewrite uniform_log_prob_interior.
Qed.

End UniformRoundTrip.

Lemma UniformPrior_transform_round_trip_witness :
  exists ns base ts,
    @UniformPrior constant_format (Finite (-10)) (Finite 10) ["x"]
    = Ok (MkSequential ns base ts) /\
    exists x, transform ts {[ "x_base" := Finite 0 ]} = Ok {[ "x" := Finite x ]} /\
              (-10 < x < 10)%R.
Proof.
  destruct (@UniformPrior_transform_round_trip constant_format (-10) 10 "x")
    as (ns & base & ts & Hp & Hround); [lra|].
  exists ns, base, ts. split; [exact Hp|].
  destruct (Hround 0%R) as (x & Hx & Hrange & _). by exists x.
Defined.

(** ** Closed instances of the statements above *)

Lemma UniformSpherePrior_log_prob_witness :
  exists p, @UniformSpherePrior constant_format ["s1"] = Ok p /\
    log_prob p (<["s1_mag" := Finite 0.5]>
                  (<["s1_theta" := Finite 1]> (<["s1_phi" := Finite 2]> ∅)))
    = Ok (Finite (ln (sin 1 / (4 * PI)))).
Proof.
  pose proof PI_RGT_0. pose proof PI2_3_2.
  apply (@UniformSpherePrior_log_prob constant_format "s1" _ 0.5 1 2); try lra.
  - apply lookup_insert_eq.
  - rewrite lookup_insert_ne by discriminate. apply lookup_insert_eq.
  - rewrite !lookup_insert_ne by discriminate. apply lookup_insert_eq.
Defined.

Lemma SequentialTransformPrior_sample_contract_witness :
  exists p,
    SequentialTransformPrior (MkLogistic ["x_base"])
      (Some [LogitTransform (["x_base"], ["x"])]) = Ok p /\
    parameter_names p = ["x"] /\ @sample_contract constant_random p.
Proof.
  eexists. split; [reflexivity|].
  apply (@SequentialTransformPrior_sample_contract constant_random
           (MkLogistic ["x_base"]) [LogitTransform (["x_base"], ["x"])] _ "x_base" "x");
    [reflexivity | reflexivity | | apply Logistic_contract].
  unfold LogitTransform. repeat econstructor.
Defined.

Lemma UniformPrior_construction_witness :
  @UniformPrior constant_format (Finite 1) NaN ["x"; "y"] =
  Raise (AssertionError "UniformPrior needs to be 1D distributions").
Proof.
  apply (proj2 (@UniformPrior_construction constant_format constant_random (Finite 1) NaN)).
  discriminate.
Defined.

Lemma UniformSpherePrior_construction_witness :
  @UniformSpherePrior constant_format [] =
  Raise (AssertionError "UniformSpherePrior only takes the name of the vector").
Proof.
  apply (proj2 (@UniformSpherePrior_construction constant_format constant_random)).
  discriminate.
Defined.

Lemma PowerLawPrior_construction_witness :
  (exists p, PowerLawPrior (Finite 1) (Finite 2000) (Finite 2) ["d_L"] = Ok p /\
     parameter_names p = ["d_L"]) /\
  PowerLawPrior (Finite 0) (Finite 1) (Finite 2) ["d_L"] =
  Raise (AssertionError "x must be positive").
Proof.
  split.
  - destruct (PowerLawPrior_construction 1 2000 (Finite 2) "d_L")
      as ((p & Hp & Hn & _) & _); [lra|].
    by exists p.
  - destruct (PowerLawPrior_construction 0 1 (Finite 2) "d_L")
      as (_ & _ & Hpos & _).
    apply Hpos; lra.
Defined.

Lemma PowerLawPrior_sample_range_witness :
  exists p, PowerLawPrior (Finite 0.05) (Finite 10) (Finite (-1)) ["x"] = Ok p /\
    exists arr, @sample constant_random p 0%Z 4 = Ok {[ "x" := arr ]} /\ length arr = 4.
Proof.
  destruct (@PowerLawPrior_sample_range constant_random 0.05 10 (-1) "x")
    as (p & Hp & Hs); [lra|].
  exists p. split; [exact Hp|].
  destruct (Hs 0%Z 4) as (arr & Harr & Hlen & _). by exists arr.
Defined.

(** * Evaluation never raises *)

(** ** Reading and renaming the names of a dictionary *)

Lemma pop_all_lookup_notin {V} (ks : list string) k : forall d : gmap string V,
  k ∉ ks -> pop_all ks d !! k = d !! k.
Proof.
  induction ks as [|k' ks IH]; intros d Hk; [reflexivity|].
  change (pop_all (k' :: ks) d) with (pop_all ks (delete k' d)).
  apply not_elem_of_cons in Hk as [Hne Hk].
  by rewrite IH, lookup_delete_ne.
Qed.

Lemma mapM_getitem_total {V} (d : gmap string V) (ks : list string) :
  (forall k, k ∈ ks -> is_Some (d !! k)) ->
  exists vals, mapM (getitem d) ks = Ok vals /\ length vals = length ks.
Proof.
  induction ks as [|k ks IH]; intros Hks; [by exists []|].
  destruct (Hks k) as [v Hv]; [by left|].
  destruct IH as (vals & Hvals & Hlen); [intros k' Hk'; apply Hks; by right|].
  exists (v :: vals). split; [|by cbn; rewrite Hlen].
  assert (Hg : getitem d k = Ok v) by (unfold getitem; by rewrite Hv).
  cbn [mapM]. rewrite Hg. cbn [mbind result_bind]. by rewrite Hvals.
Qed.

(** The inverse of a transform that renames cleanly returns on a dictionary
    that holds the names after the transform, and leaves one that holds the
    names before it. *)
Lemma inverse_total names t (z : gmap string Float) :
  renames_cleanly names t ->
  (forall n, n ∈ propagate_name t names -> is_Some (z !! n)) ->
  exists z' lj, inverse t z = Ok (z', lj) /\
    forall n, n ∈ names -> is_Some (z' !! n).
Proof.
  intros [Harity Hfresh] Hz.
  destruct (mapM_getitem_total z (name_mapping t).2) as (vals & Hvals & Hlen).
  { intros k Hk. apply Hz. unfold propagate_name. apply elem_of_app. by right. }
  unfold inverse. rewrite Hvals. cbn [mbind result_bind].
  eexists _, _. split; [reflexivity|]. intros n Hn.
  assert (Hfst : (zip (name_mapping t).1 (inverse_transform_func t vals)).*1
                 = (name_mapping t).1).
  { rewrite zip_fst_take, (Harity vals Hlen). apply firstn_all. }
  destruct (decide (n ∈ (name_mapping t).1)) as [Hin | Hnin].
  - apply elem_of_dom. rewrite update_dom, Hfst.
    apply elem_of_union. left. by apply elem_of_list_to_set.
  - rewrite update_lookup_notin by by rewrite Hfst.
    rewrite pop_all_lookup_notin.
    + apply Hz. unfold propagate_name. apply elem_of_app. left.
      by apply list_elem_of_filter.
    + intros Hout. by apply Hnin, Hfresh.
Qed.

Lemma inverse_loop_app ts1 ts2 : forall (z : gmap string Float) output,
  inverse_loop (ts1 ++ ts2) z output =
  (zo ← inverse_loop ts1 z output; inverse_loop ts2 zo.1 zo.2).
Proof.
  induction ts1 as [|t ts1 IH]; intros z output; [reflexivity|].
  cbn [app inverse_loop]. destruct (inverse t z) as [[z' lj]|e]; [|reflexivity].
  cbn [mbind result_bind fst snd]. apply IH.
Qed.

Lemma inverse_loop_total ts : forall names (z : gmap string Float) output,
  chain_renames_cleanly names ts ->
  (forall n, n ∈ foldl (fun names t => propagate_name t names) names ts ->
             is_Some (z !! n)) ->
  exists z' o, inverse_loop (rev ts) z output = Ok (z', o) /\
    forall n, n ∈ names -> is_Some (z' !! n).
Proof.
  induction ts as [|t ts IH]; intros names z output Hchain Hz.
  - by exists z, output.
  - destruct Hchain as [Ht Hchain]. cbn [rev foldl] in *.
    destruct (IH _ z output Hchain Hz) as (z1 & o1 & Hl & Hz1).
    rewrite inverse_loop_app, Hl. cbn [mbind result_bind fst snd inverse_loop].
    destruct (inverse_total names t z1 Ht Hz1) as (z2 & lj & Hi & Hz2).
    rewrite Hi. cbn [mbind result_bind fst snd]. by eexists _, _.
Qed.

(** ** The priors that the classes build *)

Lemma constructed_children priors :
  (fix each (priors : list Prior) : Prop :=
     match priors with
     | [] => True
     | q :: priors' => constructed q /\ each priors'
     end) priors <-> Forall constructed priors.
Proof.
  induction priors as [|q priors IH]; [by split; [constructor|]|].
  rewrite Forall_cons, <- IH. reflexivity.
Qed.

Lemma combine_log_prob_total ns priors (z : gmap string Float) :
  Forall (fun q => exists v, log_prob q z = Ok v) priors ->
  exists v, log_prob (MkCombine ns priors) z = Ok v.
Proof.
  cbn [log_prob]. generalize (Finite 0) as output.
  induction priors as [|q priors IH]; intros output Hall; [by eexists|].
  apply Forall_cons in Hall as [[lp Hq] Hall].
  rewrite Hq. cbn [mbind result_bind]. by apply IH.
Qed.

(** On a dictionary that holds a value under each of its parameter names,
    the log-density of a constructed prior returns. *)
Lemma constructed_log_prob_total p : forall z : gmap string Float,
  constructed p ->
  (forall n, n ∈ parameter_names p -> is_Some (z !! n)) ->
  exists v, log_prob p z = Ok v.
Proof.
  induction p as [ns|ns|ns|ns|ns base ts IH|ns priors IH] using Prior_tree_ind;
    intros z Hc Hz; cbn [parameter_names] in Hz.
  - destruct Hc.
  - destruct ns as [|name [|]]; try discriminate Hc.
    destruct (Hz name) as [v Hv]; [by left|].
    cbn. unfold getitem. rewrite Hv. by eexists.
  - destruct ns as [|name [|]]; try discriminate Hc.
    destruct (Hz name) as [v Hv]; [by left|].
    cbn. unfold getitem. rewrite Hv. by eexists.
  - destruct ns as [|name0 [|name1 [|]]]; try discriminate Hc.
    destruct (Hz name0) as [v0 Hv0]; [by left|].
    destruct (Hz name1) as [v1 Hv1]; [by right; left|].
    cbn. unfold getitem. rewrite Hv0. cbn. rewrite Hv1. by eexists.
  - destruct Hc as (Hbase & [= <-] & Hchain).
    destruct (inverse_loop_total ts _ z (Finite 0) Hchain Hz) as (z' & o & Hl & Hz').
    destruct (IH z' Hbase Hz') as [v Hv].
    cbn [log_prob]. rewrite Hl. cbn [mbind result_bind fst snd]. rewrite Hv.
    by eexists.
  - destruct Hc as [[= <-] Hall]. apply constructed_children in Hall.
    apply combine_log_prob_total.
    rewrite Forall_forall in IH, Hall. apply Forall_forall. intros q Hq.
    apply (IH q Hq z (Hall q Hq)). intros n Hn. apply Hz.
    rewrite foldl_names_concat. cbn [app].
    apply list_elem_of_lookup in Hq as [i Hi].
    apply elem_of_concat. exists i, (parameter_names q). split; [|done].
    by rewrite list_lookup_fmap, Hi.
Qed.

(** A chain of one-name transforms renames cleanly from its first name. *)
Lemma linked_renames_cleanly a ts b :
  linked a ts b -> chain_renames_cleanly [a] ts.
Proof.
  induction 1 as [a | a b c f finv flj ts _ IH]; [exact I|].
  cbn [chain_renames_cleanly]. rewrite propagate_single. split; [|exact IH].
  split; cbn [name_mapping coordinatewise inverse_transform_func fst snd].
  - intros vals Hlen. by rewrite length_map.
  - by intros n _ Hn.
Qed.

Lemma sequential_constructed base ts p a b :
  SequentialTransformPrior base (Some ts) = Ok p ->
  constructed base ->
  parameter_names base = [a] ->
  linked a ts b ->
  constructed p /\ parameter_names p = [b].
Proof.
  intros [= <-] Hbase Hnames Hlinked. cbn [constructed parameter_names].
  split; [|rewrite Hnames; by apply linked_names].
  split_and!; [exact Hbase | reflexivity |].
  rewrite Hnames. by eapply linked_renames_cleanly.
Qed.

Lemma PowerLawPrior_built xmin xmax alpha name p :
  PowerLawPrior xmin xmax alpha [name] = Ok p ->
  constructed p /\ parameter_names p = [name].
Proof.
  intros Hp. open_power_law Hp.
  eapply (sequential_constructed (MkLogistic [name +:+ "_base"]) [_; _]);
    [reflexivity | reflexivity | reflexivity |].
  unfold LogitTransform.
  destruct (feqb alpha (Finite (-1)));
    unfold ParetoTransform, PowerLawTransform; cbv zeta; repeat econstructor.
Qed.

Section Evaluation.
Context `{FloatFormat}.

Lemma UniformPrior_built xmin xmax name :
  exists p, UniformPrior xmin xmax [name] = Ok p /\
    constructed p /\ parameter_names p = [name].
Proof.
  eexists. split; [reflexivity|].
  eapply sequential_constructed; [reflexivity | reflexivity | reflexivity |].
  unfold LogitTransform, ScaleTransform, OffsetTransform. repeat econstructor.
Qed.

Lemma CosinePrior_built name :
  exists p, CosinePrior [name] = Ok p /\
    constructed p /\ parameter_names p = [name].
Proof.
  destruct (UniformPrior_built (Finite (-1)) (Finite 1) ("sin(" +:+ name +:+ ")"))
    as (u & Hu & Hc & Hnames).
  unfold CosinePrior. cbn [length Nat.eqb assert mbind result_bind index lookup list_lookup].
  rewrite Hu. cbn [mbind result_bind].
  eexists. split; [reflexivity|].
  eapply sequential_constructed; [reflexivity | exact Hc | exact Hnames |].
  unfold ArcSineTransform. repeat econstructor.
Qed.

Lemma SinePrior_built name :
  exists p, SinePrior [name] = Ok p /\
    constructed p /\ parameter_names p = [name].
Proof.
  destruct (CosinePrior_built (name +:+ "-pi/2")) as (c & Hc & Hbuilt & Hnames).
  unfold SinePrior. cbn [length Nat.eqb assert mbind result_bind index lookup list_lookup].
  rewrite Hc. cbn [mbind result_bind].
  eexists. split; [reflexivity|].
  eapply sequential_constructed; [reflexivity | exact Hbuilt | exact Hnames |].
  unfold OffsetTransform. repeat econstructor.
Qed.

Lemma UniformSpherePrior_built name :
  exists p, UniformSpherePrior [name] = Ok p /\ constructed p.
Proof.
  destruct (UniformPrior_built (Finite 0) (Finite 1) (name +:+ "_mag"))
    as (mag & Hmag & Hc1 & _).
  destruct (SinePrior_built (name +:+ "_theta")) as (theta & Htheta & Hc2 & _).
  destruct (UniformPrior_built (Finite 0) (fmul (Finite 2) (Finite PI))
              (name +:+ "_phi")) as (phi & Hphi & Hc3 & _).
  unfold UniformSpherePrior.
  cbn [length Nat.eqb assert mbind result_bind index lookup list_lookup].
  rewrite Hmag. cbn [mbind result_bind]. rewrite Htheta. cbn [mbind result_bind].
  rewrite Hphi. cbn [mbind result_bind].
  eexists. split; [reflexivity|].
  cbn [constructed]. by split_and!.
Qed.

(** Every prior that a derived class of the module returns is a constructed
    prior. *)
Lemma derived_priors_constructed names p :
  (exists xmin xmax, UniformPrior xmin xmax names = Ok p) \/
  (exists xmin xmax alpha, PowerLawPrior xmin xmax alpha names = Ok p) \/
  (exists xmin xmax, UniformInComponentsChirpMassPrior xmin xmax = Ok p) \/
  CosinePrior names = Ok p \/
  SinePrior names = Ok p \/
  UniformSpherePrior names = Ok p ->
  constructed p.
Proof.
  intros [(xmin & xmax & Hp) | [(xmin & xmax & alpha & Hp) |
          [(xmin & xmax & Hp) | [Hp | [Hp | Hp]]]]].
  - destruct names as [|name [|n2 rest]]; try discriminate Hp.
    destruct (UniformPrior_built xmin xmax name) as (p' & Hp' & Hc & _).
    rewrite Hp in Hp'. by injection Hp' as <-.
  - destruct names as [|name [|n2 rest]]; try discriminate Hp.
    by apply PowerLawPrior_built in Hp as [Hc _].
  - by apply PowerLawPrior_built in Hp as [Hc _].
  - destruct names as [|name [|n2 rest]]; try discriminate Hp.
    destruct (CosinePrior_built name) as (p' & Hp' & Hc & _).
    rewrite Hp in Hp'. by injection Hp' as <-.
  - destruct names as [|name [|n2 rest]]; try discriminate Hp.
    destruct (SinePrior_built name) as (p' & Hp' & Hc & _).
    rewrite Hp in Hp'. by injection Hp' as <-.
  - destruct names as [|name [|n2 rest]]; try discriminate Hp.
    destruct (UniformSpherePrior_built name) as (p' & Hp' & Hc).
    rewrite Hp in Hp'. by injection Hp' as <-.
Qed.

(** C2, as the code has it.  On a dictionary that holds a value under each
    of its parameter names, finite or not, [log_prob] of every constructed
    prior returns without an exception; the priors that the derived classes
    return are constructed priors.  No prior guards its support, and what
    [log_prob] returns off the support is not minus infinity: the Combine of
    two [UniformPrior(0, 1)] is constructed, its log-density is [0] when
    both coordinates are strictly inside the unit interval, and NaN when a
    coordinate is at or beyond [0] or [1]. *)
Theorem log_prob_never_raises_and_unit_square :
  (forall p (z : gmap string Float),
     constructed p ->
     (forall n, n ∈ parameter_names p -> is_Some (z !! n)) ->
     exists v, log_prob p z = Ok v) /\
  (forall names p,
     (exists xmin xmax, UniformPrior xmin xmax names = Ok p) \/
     (exists xmin xmax alpha, PowerLawPrior xmin xmax alpha names = Ok p) \/
     (exists xmin xmax, UniformInComponentsChirpMassPrior xmin xmax = Ok p) \/
     CosinePrior names = Ok p \/
     SinePrior names = Ok p \/
     UniformSpherePrior names = Ok p ->
     constructed p) /\
  (forall nx ny (z : gmap string Float) (x y : R),
     z !! nx = Some (Finite x) -> z !! ny = Some (Finite y) ->
     exists px py p,
       UniformPrior (Finite 0) (Finite 1) [nx] = Ok px /\
       UniformPrior (Finite 0) (Finite 1) [ny] = Ok py /\
       CombinePrior [px; py] = Ok p /\
       constructed p /\
       parameter_names p = [nx; ny] /\
       ((0 < x < 1)%R -> (0 < y < 1)%R -> log_prob p z = Ok (Finite 0)) /\
       ((x <= 0 \/ 1 <= x \/ y <= 0 \/ 1 <= y)%R ->
        log_prob p z = Ok NaN /\ log_prob p z ≠ Ok NInf)).
Proof.
  split; [intros p z; apply constructed_log_prob_total|].
  split; [exact derived_priors_constructed|].
  intros nx ny z x y Hx Hy.
  destruct (unit_square_log_prob_cases nx ny z x y Hx Hy)
    as (px & py & p & Hpx & Hpy & Hp & _ & Hin & Hout).
  destruct (UniformPrior_built (Finite 0) (Finite 1) nx) as (px' & Hpx' & Hcx & Hnx).
  destruct (UniformPrior_built (Finite 0) (Finite 1) ny) as (py' & Hpy' & Hcy & Hny).
  rewrite Hpx in Hpx'. injection Hpx' as <-.
  rewrite Hpy in Hpy'. injection Hpy' as <-.
  exists px, py, p. split_and!; [done..| | | exact Hin |].
  - injection Hp as <-. cbn [constructed]. by split_and!.
  - injection Hp as <-. cbn [parameter_names foldl]. by rewrite Hnx, Hny.
  - intros Hxy. rewrite (Hout Hxy). by split.
Qed.

End Evaluation.

(** The condition on the transforms of a Sequential is needed.  A transform
    that produces the name its base reads, and consumes another, takes the
    value away from the base: the prior is built, the dictionary holds its
    parameter name, and [log_prob] raises [KeyError]. *)
Lemma Sequential_name_clash_raises :
  exists base p,
    LogisticDistribution ["a"] = Ok base /\
    SequentialTransformPrior base (Some [ScaleTransform (["b"], ["a"]) (Finite 2)])
      = Ok p /\
    parameter_names p = ["a"; "a"] /\
    log_prob p (<["a" := Finite 0.5]> ∅) = Raise (KeyError "a").
Proof.
  eexists _, _. split_and!; [reflexivity | reflexivity | reflexivity |].
  vm_compute. reflexivity.
Qed.

(** C2, refuted as stated: for the Combine of two unit-interval uniform
    priors, with the first coordinate at [2], outside [[0, 1]], [log_prob]
    returns NaN where the claim expects minus infinity; and with the first
    coordinate at [0] or at [1], inside [[0, 1]], it returns NaN where the
    claim expects [0]. *)
Lemma unit_square_off_interior_is_nan :
  exists px py p,
    @UniformPrior constant_format (Finite 0) (Finite 1) ["x"] = Ok px /\
    @UniformPrior constant_format (Finite 0) (Finite 1) ["y"] = Ok py /\
    CombinePrior [px; py] = Ok p /\
    log_prob p (<["x" := Finite 2]> (<["y" := Finite 0.5]> ∅)) = Ok NaN /\
    log_prob p (<["x" := Finite 2]> (<["y" := Finite 0.5]> ∅)) ≠ Ok NInf /\
    log_prob p (<["x" := Finite 0]> (<["y" := Finite 0.5]> ∅)) = Ok NaN /\
    log_prob p (<["x" := Finite 0]> (<["y" := Finite 0.5]> ∅)) ≠ Ok (Finite 0) /\
    log_prob p (<["x" := Finite 1]> (<["y" := Finite 0.5]> ∅)) = Ok NaN /\
    log_prob p (<["x" := Finite 1]> (<["y" := Finite 0.5]> ∅)) ≠ Ok (Finite 0).
Proof.
  assert (Hat : forall x : R, (x <= 0 \/ 1 <= x)%R ->
            exists px py p,
              @UniformPrior constant_format (Finite 0) (Finite 1) ["x"] = Ok px /\
              @UniformPrior constant_format (Finite 0) (Finite 1) ["y"] = Ok py /\
              CombinePrior [px; py] = Ok p /\
              log_prob p (<["x" := Finite x]> (<["y" := Finite 0.5]> ∅)) = Ok NaN).
  { intros x Hx.
    destruct (@unit_square_log_prob_cases constant_format "x" "y"
                (<["x" := Finite x]> (<["y" := Finite 0.5]> ∅)) x 0.5)
      as (px & py & p & Hpx & Hpy & Hp & _ & _ & Hout).
    - apply lookup_insert_eq.
    - rewrite lookup_insert_ne by discriminate. apply lookup_insert_eq.
    - exists px, py, p. split_and!; [done..|]. apply Hout. lra. }
  destruct (Hat 2%R) as (px & py & p & Hpx & Hpy & Hp & H2); [lra|].
  destruct (Hat 0%R) as (px0 & py0 & p0 & Hpx0 & Hpy0 & Hp0 & H0); [lra|].
  destruct (Hat 1%R) as (px1 & py1 & p1 & Hpx1 & Hpy1 & Hp1 & H1); [lra|].
  rewrite Hpx in Hpx0, Hpx1. injection Hpx0 as <-. injection Hpx1 as <-.
  rewrite Hpy in Hpy0, Hpy1. injection Hpy0 as <-. injection Hpy1 as <-.
  rewrite Hp in Hp0, Hp1. injection Hp0 as <-. injection Hp1 as <-.
  exists px, py, p.
  split_and!; [done | done | done | done | by rewrite H2 | done | by rewrite H0
              | done | by rewrite H1].
Qed.

Lemma log_prob_never_raises_and_unit_square_witness :
  exists px py p,
    @UniformPrior constant_format (Finite 0) (Finite 1) ["x"] = Ok px /\
    @UniformPrior constant_format (Finite 0) (Finite 1) ["y"] = Ok py /\
    CombinePrior [px; py] = Ok p /\
    constructed p /\
    (exists v, log_prob p (<["x" := PInf]> (<["y" := NaN]> ∅)) = Ok v) /\
    log_prob p (<["x" := Finite 0.25]> (<["y" := Finite 0.5]> ∅)) = Ok (Finite 0).
Proof.
  destruct (@log_prob_never_raises_and_unit_square constant_format)
    as (Hdefined & _ & Hsquare).
  destruct (Hsquare "x" "y" (<["x" := Finite 0.25]> (<["y" := Finite 0.5]> ∅))
              0.25%R 0.5%R)
    as (px & py & p & Hpx & Hpy & Hp & Hc & Hnames & Hin & _).
  - apply lookup_insert_eq.
  - rewrite lookup_insert_ne by discriminate. apply lookup_insert_eq.
  - exists px, py, p. split_and!; [done..| | apply Hin; lra].
    apply Hdefined; [exact Hc|]. rewrite Hnames. intros n Hn.
    apply elem_of_cons in Hn as [-> | Hn].
    + rewrite lookup_insert_eq. by eexists.
    + apply elem_of_cons in Hn as [-> | Hn]; [|by apply elem_of_nil in Hn].
      rewrite lookup_insert_ne by discriminate. rewrite lookup_insert_eq. by eexists.
Defined.
